(** * Shunting-Yard calculator: a shallow embedding of [Evaluator.cpp]

    The program is a three stage pipeline: [lexana::lex] (text to tokens),
    [shuntingYard] (infix tokens to postfix tokens) and [compute] (postfix
    tokens to a [float]).  Each stage is embedded below as a Rocq function
    that follows the control flow of the C++ source, and the properties of
    the pipeline are stated and proved about these functions. *)

From Stdlib Require Import ZArith NArith List Bool Ascii String Lia.
From Stdlib Require Import Permutation.
From Stdlib Require Import Floats.SpecFloat.
Import ListNotations.

Local Open Scope string_scope.
Local Open Scope list_scope.

(** ** The C++ [float]: IEEE-754 binary32 *)

Definition float : Type := spec_float.

Module F32.

Definition prec : Z := 24.
Definition emax : Z := 128.

Definition add : float -> float -> float := SFadd prec emax.
Definition sub : float -> float -> float := SFsub prec emax.
Definition mul : float -> float -> float := SFmul prec emax.
Definition div : float -> float -> float := SFdiv prec emax.

(** The conversion [(float) n] of an integer, round to nearest even. *)
Definition of_Z (n : Z) : float := binary_normalize prec emax n 0 false.

(** The value-initialised [float] of a fresh token, [+0.0]. *)
Definition zero : float := S754_zero false.

(** [rhs *= -1]: the [int] is converted and the product is a [float]. *)
Definition neg (x : float) : float := mul x (of_Z (-1)).

(** [std::fmod], the remainder of the truncated quotient.  It is always
    representable, so no rounding takes place.  The program never calls
    it; it gives a meaning to the modulo operator of an expression that is
    evaluated directly. *)
Definition fmod (x y : float) : float :=
  match x, y with
  | S754_nan, _ | _, S754_nan => S754_nan
  | S754_infinity _, _ => S754_nan
  | _, S754_zero _ => S754_nan
  | S754_zero _, _ => x
  | S754_finite _ _ _, S754_infinity _ => x
  | S754_finite sx mx ex, S754_finite _ my ey =>
      let e := Z.min ex ey in
      let a := Zpos (fst (shl_align mx ex e)) in
      let b := Zpos (fst (shl_align my ey e)) in
      binary_normalize prec emax (cond_Zopp sx (Z.modulo a b)) e sx
  end.

End F32.

(** ** Token model *)

Inductive tokenType : Type :=
| nil_t | lpa | rpa | add | sub | mul | div | mod_t | exp | i32 | f32.

Definition tokenType_eqb (a b : tokenType) : bool :=
  match a, b with
  | nil_t, nil_t | lpa, lpa | rpa, rpa | add, add | sub, sub | mul, mul
  | div, div | mod_t, mod_t | exp, exp | i32, i32 | f32, f32 => true
  | _, _ => false
  end.

Record token : Type := mkToken {
  strData : string;
  intData : Z;
  fltData : float;
  precedence : N;
  type : tokenType;
  rAssociative : bool;
  unary : bool
}.

(** The tokens the lexer builds, one definition per [case] of its switch;
    the members a [case] does not set keep the value [token t {}] gives
    them. *)
Definition tok_lpa : token := mkToken "(" 0 F32.zero 9 lpa false false.
Definition tok_rpa : token := mkToken ")" 0 F32.zero 0 rpa false false.
Definition tok_add : token := mkToken "+" 0 F32.zero 2 add false false.
Definition tok_neg : token := mkToken "m" 0 F32.zero 5 sub false true.
Definition tok_sub : token := mkToken "-" 0 F32.zero 2 sub false false.
Definition tok_div : token := mkToken "/" 0 F32.zero 3 div false false.
Definition tok_mul : token := mkToken "*" 0 F32.zero 3 mul false false.
Definition tok_mod : token := mkToken "%" 0 F32.zero 6 mod_t false false.
Definition tok_exp : token := mkToken "^" 0 F32.zero 4 exp true false.
Definition tok_i32 (n : Z) : token := mkToken "" n F32.zero 0 i32 false false.
Definition tok_f32 (x : float) : token := mkToken "" 0 x 0 f32 false false.

(** ** Lexer *)

Inductive lex_error : Type :=
| RedefinitionOfFloat          (* "Redefinition of float: ..." ; exit(1) *)
| UnexpectedDot                (* "Unexpected: '.'" ; exit(1) *)
| Unexpected (c : ascii)       (* "Unexpected: c" ; exit(1) *)
| UncaughtOutOfRange.          (* std::stoi / std::stof threw *)

Inductive lex_result : Type :=
| Lexed (formatTokens : list token)
| Fatal (e : lex_error).

Definition isdigit (c : ascii) : bool :=
  let n := N_of_ascii c in ((48 <=? n) && (n <=? 57))%N.

Definition is_space (c : ascii) : bool :=
  match c with
  | " "%char | "009"%char | "010"%char | "013"%char => true
  | _ => false
  end.

Definition digit_val (c : ascii) : Z := Z.of_N (N_of_ascii c) - 48.

(** [std::stoi] on the text the lexer accumulates.  The text holds decimal
    digits only (no sign, no blank), so the conversion is the decimal value
    of the leading digits; [None] stands for the two exceptions of
    [std::stoi]: no digit at all, or a value that does not fit an [int]
    (of 32 bits). *)
Fixpoint stoi_digits (s : string) (acc : Z) : Z :=
  match s with
  | String c rest => if isdigit c then stoi_digits rest (10 * acc + digit_val c) else acc
  | EmptyString => acc
  end.

Definition INT_MAX : Z := 2147483647.

Definition stoi (s : string) : option Z :=
  match s with
  | String c _ =>
      if isdigit c
      then let v := stoi_digits s 0 in if (v <=? INT_MAX)%Z then Some v else None
      else None
  | EmptyString => None
  end.

Definition append_char (s : string) (c : ascii) : string := s ++ String c "".

Definition minus_is_unary (formatTokens : list token) : bool :=
  match rev formatTokens with
  | [] => true
  | back :: _ =>
      match type back with
      | add | sub | div | mul | mod_t | exp | lpa => true
      | _ => false
      end
  end.

Section Lexer.

(** [std::stof] is the C++ library's decimal to [float] conversion; [None]
    stands for the exception it throws. *)
Variable stof : string -> option float.

(** The end of the [case] of a numeric literal: the accumulated text is
    converted according to the token's type, the token is pushed, and the
    [for] loop goes on at the first character the scan did not take. *)
Definition finish_literal (formatTokens : list token) (ty : tokenType)
           (floatStr : string) (k : list token -> lex_result) : lex_result :=
  if tokenType_eqb ty f32
  then match stof floatStr with
       | Some x => k (formatTokens ++ [mkToken "" 0 x 0 ty false false])
       | None => Fatal UncaughtOutOfRange
       end
  else match stoi floatStr with
       | Some n => k (formatTokens ++ [mkToken "" n F32.zero 0 ty false false])
       | None => Fatal UncaughtOutOfRange
       end.

(** The [while (isdigit(c) || c == '_' || c == '.')] loop.  [s] is the
    input from the current character [c] on; at the end of the input
    [data[i]] is the terminating NUL, which ends the loop.  [k] receives
    the input that is left, the type and the accumulated text. *)
Definition scan_number (k : string -> tokenType -> string -> lex_result)
  : string -> tokenType -> string -> lex_result :=
  fix scan (s : string) (ty : tokenType) (floatStr : string) {struct s} :=
    match s with
    | EmptyString => k s ty floatStr
    | String c rest =>
        if Ascii.eqb c "_" then scan rest ty floatStr
        else if Ascii.eqb c "." then
               if tokenType_eqb ty f32 then Fatal RedefinitionOfFloat
               else scan rest f32 (append_char floatStr ".")
        else if isdigit c then scan rest ty (append_char floatStr c)
        else k s ty floatStr
    end.

(** [lex_again s toks] is the body of the [for] loop entered at the label
    [_again] with [data[i..]] = [s]; at [i = data.size()] the character
    read is the terminating NUL, which no [case] takes.  [lex_for] is the
    loop test [i < data.size()] that follows [++i]; the whitespace case
    jumps to [_again] and does not pass it.  In the case of a digit the
    first turn of the scan, which appends that digit, is written out; the
    [--i] that follows the scan and the [++i] of the loop leave the input at
    the first character the scan did not take. *)
Fixpoint lex_again (s : string) (formatTokens : list token) {struct s} : lex_result :=
  let lex_for (s' : string) (toks : list token) : lex_result :=
    match s' with
    | EmptyString => Lexed toks
    | String _ _ => lex_again s' toks
    end in
  match s with
  | EmptyString => Fatal (Unexpected zero)
  | String c rest =>
      if is_space c then lex_again rest formatTokens
      else if Ascii.eqb c "(" then lex_for rest (formatTokens ++ [tok_lpa])
      else if Ascii.eqb c ")" then lex_for rest (formatTokens ++ [tok_rpa])
      else if Ascii.eqb c "+" then lex_for rest (formatTokens ++ [tok_add])
      else if Ascii.eqb c "-" then
             if minus_is_unary formatTokens
             then lex_for rest (formatTokens ++ [tok_neg])
             else lex_for rest (formatTokens ++ [tok_sub])
      else if Ascii.eqb c "/" then lex_for rest (formatTokens ++ [tok_div])
      else if Ascii.eqb c "*" || Ascii.eqb c "x" then lex_for rest (formatTokens ++ [tok_mul])
      else if Ascii.eqb c "%" then lex_for rest (formatTokens ++ [tok_mod])
      else if Ascii.eqb c "^" then lex_for rest (formatTokens ++ [tok_exp])
      else if isdigit c then
             scan_number
               (fun s' ty floatStr =>
                  finish_literal formatTokens ty floatStr (lex_for s'))
               rest i32 (String c "")
      else if Ascii.eqb c "." then
             match rest with
             | String d rest' =>
                 if isdigit d
                 then scan_number
                        (fun s' ty floatStr =>
                           finish_literal formatTokens ty floatStr (lex_for s'))
                        rest f32 "."
                 else Fatal UnexpectedDot
             | EmptyString => Fatal UnexpectedDot
             end
      else Fatal (Unexpected c)
  end.

Definition lex_for (s : string) (formatTokens : list token) : lex_result :=
  match s with
  | EmptyString => Lexed formatTokens
  | String _ _ => lex_again s formatTokens
  end.

(** [lexana::lex] on a lexer whose token buffer is empty, as the driver
    leaves it before every line. *)
Definition lex (data : string) : lex_result := lex_for data [].

End Lexer.

(** ** Shunting-yard reorderer *)

(** What [shuntingYard] does besides returning: on each of its three error
    paths it writes a diagnostic and returns the empty deque. *)
Inductive sy_result : Type :=
| Postfix (queue : list token)
| RightParenthesisError (t : token)     (* "Right parenthesis error: ..." *)
| TokenError (t : token)                (* "Error: ..." *)
| MismatchedParentheses.                (* "Mismatched parentheses error" *)

(** The deque the caller receives. *)
Definition returned (r : sy_result) : list token :=
  match r with
  | Postfix queue => queue
  | _ => []
  end.

(** The test of the operator loop: does [o1] send the stack top [o2] to the
    queue? *)
Definition pops (o1 o2 : token) : bool :=
  (negb (rAssociative o1) && (precedence o1 <=? precedence o2)%N)
  || (rAssociative o1 && (precedence o1 <? precedence o2)%N).

(** The vector [stack] is a list whose head is [stack.back()]; the deque
    [queue] is a list whose last element is its back. *)
Fixpoint pop_operators (o1 : token) (stack queue : list token) : list token * list token :=
  match stack with
  | [] => (stack, queue)
  | o2 :: stack' =>
      if pops o1 o2 then pop_operators o1 stack' (queue ++ [o2])
      else (stack, queue)
  end.

(** The loop of the right parenthesis, with the flag [match] it sets. *)
Fixpoint pop_to_lpa (stack queue : list token) (matched : bool)
  : list token * list token * bool :=
  match stack with
  | [] => (stack, queue, matched)
  | back :: stack' =>
      if tokenType_eqb (type back) lpa then (stack, queue, matched)
      else pop_to_lpa stack' (queue ++ [back]) true
  end.

(** The final loop, which empties the stack. *)
Fixpoint drain (stack queue : list token) : sy_result :=
  match stack with
  | [] => Postfix queue
  | back :: stack' =>
      if tokenType_eqb (type back) lpa then MismatchedParentheses
      else drain stack' (queue ++ [back])
  end.

Fixpoint sy_loop (tokens : list token) (queue stack : list token) : sy_result :=
  match tokens with
  | [] => drain stack queue
  | t :: tokens' =>
      match type t with
      | i32 | f32 => sy_loop tokens' (queue ++ [t]) stack
      | add | sub | mul | div | mod_t | exp =>
          let '(stack1, queue1) := pop_operators t stack queue in
          sy_loop tokens' queue1 (t :: stack1)
      | lpa => sy_loop tokens' queue (t :: stack)
      | rpa =>
          let '(stack1, queue1, matched) := pop_to_lpa stack queue false in
          if negb matched && match stack1 with [] => true | _ => false end
          then RightParenthesisError t
          else sy_loop tokens' queue1 (match stack1 with [] => [] | _ :: s => s end)
      | nil_t => TokenError t
      end
  end.

Definition shuntingYard (tokens : list token) : sy_result := sy_loop tokens [] [].

(** ** Postfix evaluator *)

Section Evaluator.

(** [std::pow] on [float] arguments is the C++ library's. *)
Variable pow : float -> float -> float.

(** One iteration of the [while] loop of [compute] on the token taken from
    the front of the deque (the members are read as the front element had
    them when it was popped).  The head of the list is [stack.back()].
    [None] is undefined behaviour: [back()] or [pop_back()] of an empty
    vector. *)
Definition compute_step (t : token) (stack : list float) : option (list float) :=
  match type t with
  | nil_t => Some stack
  | i32 => Some (F32.of_Z (intData t) :: stack)
  | f32 => Some (fltData t :: stack)
  | add | sub | mul | div | mod_t | exp =>
      if unary t then
        match stack with
        | rhs :: stack' => Some (F32.neg rhs :: stack')
        | [] => None
        end
      else
        match stack with
        | rhs :: lhs :: stack' =>
            match type t with
            | exp => Some (pow lhs rhs :: stack')
            | mul => Some (F32.mul lhs rhs :: stack')
            | div => Some (F32.div lhs rhs :: stack')
            | add => Some (F32.add lhs rhs :: stack')
            | sub => Some (F32.sub lhs rhs :: stack')
            | _ => Some stack'
            end
        | _ => None
        end
  | lpa | rpa => Some stack
  end.

Fixpoint compute_loop (formatted : list token) (stack : list float) : option (list float) :=
  match formatted with
  | [] => Some stack
  | t :: formatted' =>
      match compute_step t stack with
      | Some stack' => compute_loop formatted' stack'
      | None => None
      end
  end.

(** [compute]: the value [stack.back()] after the loop; [None] when the
    program has no defined result. *)
Definition compute (formatted : list token) : option float :=
  match compute_loop formatted [] with
  | Some (top :: _) => Some top
  | _ => None
  end.

(** ** The driver's pipeline on one line of input *)

Variable stof : string -> option float.

Inductive outcome : Type :=
| Exits (e : lex_error)        (* the lexer ended the process *)
| Undefined                    (* [compute] has no defined result *)
| Prints (expr : float).       (* "That evaluates out to:" expr *)

(** [shuntingYard] on the tokens of a text the lexer accepts. *)
Definition reorder (text : string) : option sy_result :=
  match lex stof text with
  | Lexed formatTokens => Some (shuntingYard formatTokens)
  | Fatal _ => None
  end.

(** The body of the driver's loop: [lex], [shuntingYard], [compute]. *)
Definition evaluate (text : string) : outcome :=
  match lex stof text with
  | Fatal e => Exits e
  | Lexed formatTokens =>
      match compute (returned (shuntingYard formatTokens)) with
      | Some expr => Prints expr
      | None => Undefined
      end
  end.

End Evaluator.

(** ** Stand-ins for the library functions, for closed examples

    [std::stof] and [std::pow] are parameters of the embedding.  The two
    functions below are instances at which closed examples are evaluated. *)

Module Ref.

(** The digits of a decimal text and the number of them after the point. *)
Fixpoint decimal_parts (s : string) (seen_dot : bool) (d : Z) (k : N) : Z * N :=
  match s with
  | EmptyString => (d, k)
  | String c rest =>
      if Ascii.eqb c "." then decimal_parts rest true d k
      else if isdigit c
           then decimal_parts rest seen_dot (10 * d + digit_val c)
                  (if seen_dot then N.succ k else k)
           else (d, k)
  end.

(** Decimal to binary32, correctly rounded (to nearest, ties to even): the
    quotient of the digits by the power of ten, rounded once.  A value
    beyond the largest [float] is the exception [std::out_of_range]. *)
Definition stof (s : string) : option float :=
  let '(d, k) := decimal_parts s false 0%Z 0%N in
  match d with
  | Zpos m =>
      match F32.div (S754_finite false m 0)
                    (S754_finite false (Z.to_pos (10 ^ Z.of_N k)) 0) with
      | S754_infinity _ => None
      | x => Some x
      end
  | _ => Some F32.zero
  end.

(** The exponent of [pow] when it is a non-negative integer. *)
Definition integral (y : float) : option N :=
  match y with
  | S754_zero _ => Some 0%N
  | S754_finite false m e =>
      match e with
      | Zneg p =>
          if (Zpos m mod 2 ^ Zpos p =? 0)%Z
          then Some (Z.to_N (Zpos m / 2 ^ Zpos p))
          else None
      | _ => Some (Z.to_N (Zpos m * 2 ^ e))
      end
  | _ => None
  end.

(** Powers with a non-negative integral exponent, by repeated
    multiplication in binary32: the exact power whenever every partial
    product is representable.  Any other exponent gives NaN. *)
Definition pow (x y : float) : float :=
  match integral y with
  | Some n => N.iter n (fun acc => F32.mul acc x) (F32.of_Z 1)
  | None => S754_nan
  end.

End Ref.

(** ** Direct evaluation of an expression

    The reference the pipeline is compared with: an expression tree, the
    text it is written as, and its value computed by recursion on the tree.
    A tree is the reading of its text under a precedence ordering when every
    operand binds at least as tightly as its position requires
    ([grouped]). *)

Inductive binop : Type := Add | Sub | Mul | Div | Mod | Pow.

Inductive expr : Type :=
| Num (text : string) (t : token)      (* a numeric literal and its token *)
| Neg (e : expr)                       (* unary minus *)
| Bin (op : binop) (l r : expr)
| Paren (e : expr)
| Pad (before : string) (e : expr) (after : string).   (* whitespace around *)

Definition op_char (op : binop) : ascii :=
  match op with
  | Add => "+" | Sub => "-" | Mul => "*" | Div => "/" | Mod => "%" | Pow => "^"
  end%char.

Definition op_token (op : binop) : token :=
  match op with
  | Add => tok_add | Sub => tok_sub | Mul => tok_mul
  | Div => tok_div | Mod => tok_mod | Pow => tok_exp
  end.

Fixpoint render (e : expr) : string :=
  match e with
  | Num text _ => text
  | Neg e' => String "-" (render e')
  | Bin op l r => render l ++ String (op_char op) (render r)
  | Paren e' => String "(" (render e' ++ ")")
  | Pad before e' after => before ++ render e' ++ after
  end.

Fixpoint tokens_of (e : expr) : list token :=
  match e with
  | Num _ t => [t]
  | Neg e' => tok_neg :: tokens_of e'
  | Bin op l r => tokens_of l ++ op_token op :: tokens_of r
  | Paren e' => tok_lpa :: tokens_of e' ++ [tok_rpa]
  | Pad _ e' _ => tokens_of e'
  end.

Fixpoint postfix (e : expr) : list token :=
  match e with
  | Num _ t => [t]
  | Neg e' => postfix e' ++ [tok_neg]
  | Bin op l r => postfix l ++ postfix r ++ [op_token op]
  | Paren e' | Pad _ e' _ => postfix e'
  end.

(** The characters of a numeric literal, and the shape of its text: a digit,
    or a point and a digit, followed by digits, underscores and points. *)
Definition literal_char (c : ascii) : bool :=
  isdigit c || Ascii.eqb c "_" || Ascii.eqb c ".".

Fixpoint all_chars (p : ascii -> bool) (s : string) : bool :=
  match s with
  | EmptyString => true
  | String c rest => p c && all_chars p rest
  end.

Definition literal_text (s : string) : bool :=
  match s with
  | String c rest =>
      if isdigit c then all_chars literal_char rest
      else if Ascii.eqb c "." then
             match rest with
             | String d _ => isdigit d && all_chars literal_char rest
             | EmptyString => false
             end
      else false
  | EmptyString => false
  end.

(** The value a literal token stands for, as [compute] pushes it. *)
Definition literal_value (t : token) : float :=
  match type t with
  | i32 => F32.of_Z (intData t)
  | f32 => fltData t
  | _ => F32.zero
  end.

Definition right_assoc (op : binop) : bool :=
  match op with Pow => true | _ => false end.

Record ordering : Type := mkOrdering {
  rank : binop -> N;
  rank_neg : N
}.

(** The ordering of the specification's property:
    power > modulo > unary minus > multiply, divide > add, subtract. *)
Definition spec_ordering : ordering :=
  {| rank := fun op =>
       match op with
       | Pow => 5 | Mod => 4 | Mul | Div => 2 | Add | Sub => 1
       end%N;
     rank_neg := 3%N |}.

(** The ordering of the lexer's precedence table:
    modulo > unary minus > power > multiply, divide > add, subtract. *)
Definition code_ordering : ordering :=
  {| rank := fun op => precedence (op_token op);
     rank_neg := precedence tok_neg |}.

(** The rank of the outermost operator; a literal and a parenthesised
    expression have none and bind tightest. *)
Fixpoint level (o : ordering) (e : expr) : option N :=
  match e with
  | Num _ _ | Paren _ => None
  | Neg _ => Some (rank_neg o)
  | Bin op _ _ => Some (rank o op)
  | Pad _ e' _ => level o e'
  end.

Definition at_least (n : N) (l : option N) : bool :=
  match l with None => true | Some m => (n <=? m)%N end.

Definition above (n : N) (l : option N) : bool :=
  match l with None => true | Some m => (n <? m)%N end.

Fixpoint grouped (o : ordering) (e : expr) : bool :=
  match e with
  | Num _ _ => true
  | Paren e' | Pad _ e' _ => grouped o e'
  | Neg e' => grouped o e' && at_least (rank_neg o) (level o e')
  | Bin op l r =>
      grouped o l && grouped o r &&
      if right_assoc op
      then above (rank o op) (level o l) && at_least (rank o op) (level o r)
      else at_least (rank o op) (level o l) && above (rank o op) (level o r)
  end.

(** Expressions in which parentheses enclose a literal only, unary minus is
    applied to such an operand only, and modulo does not occur.  Padding
    counts for nothing. *)
Fixpoint atom (e : expr) : bool :=
  match e with
  | Num _ _ => true
  | Paren e' | Pad _ e' _ => atom e'
  | _ => false
  end.

Fixpoint plain (e : expr) : bool :=
  match e with
  | Num _ _ => true
  | Paren e' => atom e'
  | Neg e' => atom e'
  | Bin op l r =>
      match op with Mod => false | _ => plain l && plain r end
  | Pad _ e' _ => plain e'
  end.

(** The operators of an expression that stand outside its parentheses. *)
Fixpoint ops_of (e : expr) : list token :=
  match e with
  | Num _ _ | Paren _ => []
  | Neg e' => tok_neg :: ops_of e'
  | Bin op l r => ops_of l ++ op_token op :: ops_of r
  | Pad _ e' _ => ops_of e'
  end.

(** The text of the expression ends with whitespace. *)
Fixpoint trailing (e : expr) : bool :=
  match e with
  | Num _ _ | Paren _ => false
  | Neg e' => trailing e'
  | Bin _ _ r => trailing r
  | Pad _ e' after =>
      match after with
      | EmptyString => trailing e'
      | String _ _ => true
      end
  end.

Section Direct.

Variable pow : float -> float -> float.
Variable stof : string -> option float.

(** Every literal of the tree is the text of one numeric literal, and its
    token is the one the lexer makes of that text; the padding is
    whitespace. *)
Fixpoint spelled (e : expr) : Prop :=
  match e with
  | Num text t => literal_text text = true /\ lex stof text = Lexed [t]
  | Neg e' | Paren e' => spelled e'
  | Bin _ l r => spelled l /\ spelled r
  | Pad before e' after =>
      all_chars is_space before = true /\ all_chars is_space after = true
      /\ spelled e'
  end.

Definition apply_binop (op : binop) (lhs rhs : float) : float :=
  match op with
  | Add => F32.add lhs rhs
  | Sub => F32.sub lhs rhs
  | Mul => F32.mul lhs rhs
  | Div => F32.div lhs rhs
  | Mod => F32.fmod lhs rhs
  | Pow => pow lhs rhs
  end.

Fixpoint denote (e : expr) : float :=
  match e with
  | Num _ t => literal_value t
  | Neg e' => F32.neg (denote e')
  | Bin op l r => apply_binop op (denote l) (denote r)
  | Paren e' | Pad _ e' _ => denote e'
  end.

(** The lexer accepts the text. *)
Definition accepted (text : string) : Prop :=
  exists formatTokens, lex stof text = Lexed formatTokens.

(** The specification's property at one expression, for an ordering. *)
Definition agrees_with_direct (o : ordering) (e : expr) : Prop :=
  spelled e -> grouped o e = true -> accepted (render e) ->
  evaluate pow stof (render e) = Prints (denote e).

End Direct.

(** ** The scan of a literal, as a function of its text *)

(** [scan_number] on a text of literal characters only: the type and the
    accumulated text at the end, [None] at a second decimal point. *)
Fixpoint scan_text (s : string) (ty : tokenType) (floatStr : string)
  : option (tokenType * string) :=
  match s with
  | EmptyString => Some (ty, floatStr)
  | String c rest =>
      if Ascii.eqb c "_" then scan_text rest ty floatStr
      else if Ascii.eqb c "." then
             if tokenType_eqb ty f32 then None
             else scan_text rest f32 (append_char floatStr ".")
      else scan_text rest ty (append_char floatStr c)
  end.

Definition literal_scan (s : string) : option (tokenType * string) :=
  match s with
  | String c rest =>
      if isdigit c then scan_text rest i32 (String c "") else scan_text rest f32 "."
  | EmptyString => None
  end.

(** The input after a literal: at its end, or at a character that is not
    part of a literal. *)
Definition stops (rest : string) : Prop :=
  match rest with
  | EmptyString => True
  | String c _ => literal_char c = false
  end.

Fixpoint has_dot (s : string) : bool :=
  match s with
  | EmptyString => false
  | String c rest => Ascii.eqb c "." || has_dot rest
  end.

Fixpoint strip_underscores (s : string) : string :=
  match s with
  | EmptyString => EmptyString
  | String c rest =>
      if Ascii.eqb c "_" then strip_underscores rest
      else String c (strip_underscores rest)
  end.

(** The operand of an operator of the stack guards it: no operator of [e]
    standing outside parentheses sends the top of [stack] to the queue. *)
Definition guarded (e : expr) (stack : list token) : Prop :=
  match stack with
  | [] => True
  | o2 :: _ => forall o1, In o1 (ops_of e) -> pops o1 o2 = false
  end.

(** Every literal of the tree carries a literal token. *)
Fixpoint typed (e : expr) : Prop :=
  match e with
  | Num _ t => type t = i32 \/ type t = f32
  | Neg e' | Paren e' | Pad _ e' _ => typed e'
  | Bin _ l r => typed l /\ typed r
  end.

(** The text ends with a whitespace character. *)
Fixpoint ends_in_space (s : string) : bool :=
  match s with
  | EmptyString => false
  | String c EmptyString => is_space c
  | String _ rest => ends_in_space rest
  end.

(** Closed expressions of the examples. *)
Definition num (n : Z) (text : string) : expr := Num text (tok_i32 n).

(** ["-3^2"] read with power above unary minus. *)
Definition neg_of_power : expr := Neg (Bin Pow (num 3 "3") (num 2 "2")).

(** ["2*(3+4)"]. *)
Definition product_of_sum : expr :=
  Bin Mul (num 2 "2") (Paren (Bin Add (num 3 "3") (num 4 "4"))).

(** ["7%3"]. *)
Definition remainder : expr := Bin Mod (num 7 "7") (num 3 "3").

(** ["--3"]. *)
Definition double_negation : expr := Neg (Neg (num 3 "3")).

(** [" 1 + 2*3^2 - (4)/-2"]. *)
Definition sample : expr :=
  Bin Sub
    (Bin Add (Pad " " (num 1 "1") " ")
       (Pad " " (Bin Mul (num 2 "2") (Bin Pow (num 3 "3") (num 2 "2"))) " "))
    (Pad " " (Bin Div (Paren (num 4 "4")) (Neg (num 2 "2"))) "").

(** ** The tokens of a text, one lexeme at a time *)

(** The characters that are a token by themselves, [-] apart. *)
Definition punctuation : list (ascii * token) :=
  [("("%char, tok_lpa); (")"%char, tok_rpa); ("+"%char, tok_add);
   ("/"%char, tok_div); ("*"%char, tok_mul); ("x"%char, tok_mul);
   ("%"%char, tok_mod); ("^"%char, tok_exp)].

Section Lexemes.

Variable stof : string -> option float.

(** [txt] is the text of the token [t], for a lexer whose buffer holds
    [formatTokens]: a character of punctuation, a [-], whose token depends
    on the buffer, or a numeric literal. *)
Definition lexeme (formatTokens : list token) (txt : string) (t : token) : Prop :=
  (exists c, txt = String c "" /\ In (c, t) punctuation)
  \/ (txt = "-" /\ t = if minus_is_unary formatTokens then tok_neg else tok_sub)
  \/ (literal_text txt = true /\ lex stof txt = Lexed [t]).

(** A text that is a sequence of lexemes, each after any whitespace, a
    literal being followed by no character that could continue it; nothing
    stands after the last lexeme. *)
Inductive lexemes : list token -> string -> list token -> Prop :=
| lexemes_end formatTokens : lexemes formatTokens "" []
| lexemes_token formatTokens ws txt t rest ts :
    all_chars is_space ws = true ->
    lexeme formatTokens txt t ->
    (literal_text txt = true -> stops rest) ->
    lexemes (formatTokens ++ [t]) rest ts ->
    lexemes formatTokens (ws ++ txt ++ rest) (t :: ts).

End Lexemes.

(** The tokens the lexer can build. *)
Definition lexer_token (t : token) : Prop :=
  In t [tok_lpa; tok_rpa; tok_add; tok_neg; tok_sub; tok_div; tok_mul;
        tok_mod; tok_exp]
  \/ (exists n, t = tok_i32 n /\ (0 <= n <= INT_MAX)%Z)
  \/ (exists x, t = tok_f32 x).

(** The characters other than the parentheses. *)
Definition not_paren_char (c : ascii) : bool :=
  negb (Ascii.eqb c "(" || Ascii.eqb c ")").

(** The characters the lexer has a [case] for. *)
Definition lexer_char (c : ascii) : bool :=
  is_space c || literal_char c
  || existsb (Ascii.eqb c) ["("; ")"; "+"; "-"; "/"; "*"; "x"; "%"; "^"]%char.

(** The text with [*] written for every [x]. *)
Fixpoint star_for_x (s : string) : string :=
  match s with
  | EmptyString => EmptyString
  | String c rest =>
      String (if Ascii.eqb c "x" then "*"%char else c) (star_for_x rest)
  end.

Fixpoint count_dots (s : string) : nat :=
  match s with
  | EmptyString => 0
  | String c rest => (if Ascii.eqb c "." then 1 else 0) + count_dots rest
  end.

(** ** Kinds of tokens *)

Definition is_literal (t : token) : bool :=
  match type t with i32 | f32 => true | _ => false end.

Definition is_paren (t : token) : bool :=
  match type t with lpa | rpa => true | _ => false end.

Definition is_operator (t : token) : bool :=
  match type t with
  | add | sub | mul | div | mod_t | exp => true
  | _ => false
  end.

(** The tokens [compute] does something for. *)
Definition counts (t : token) : bool := is_literal t || is_operator t.

(** ** The height of the value stack of [compute] *)

(** The height after the token, from the height before it; [None] when the
    token finds too few values. *)
Definition height_step (t : token) (height : nat) : option nat :=
  if is_literal t then Some (S height)
  else if is_operator t then
         if unary t then
           match height with
           | S _ => Some height
           | O => None
           end
         else
           match height with
           | S (S below) =>
               Some (if tokenType_eqb (type t) mod_t then below else S below)
           | _ => None
           end
  else Some height.

Fixpoint height_loop (formatted : list token) (height : nat) : option nat :=
  match formatted with
  | [] => Some height
  | t :: formatted' =>
      match height_step t height with
      | Some height' => height_loop formatted' height'
      | None => None
      end
  end.

(** ** The driver *)

(** How a run of [main] ends. *)
Inductive ending : Type :=
| NormalExit                       (* the line "exit" : [return 0] *)
| LexerExit (e : lex_error)        (* [exit(1)] or an exception in [lex] *)
| NoDefinedResult.                 (* [compute] read an empty stack *)

Section Driver.

Variable pow : float -> float -> float.
Variable stof : string -> option float.

(** The loop of [main] on the lines of the standard input, which ends after
    the newline of its last line; the floats are the values printed.
    [formatTokens] is the buffer of the lexer, which [lex] appends to and
    which the loop clears after it has printed.  When the input is at its
    end [std::getline] leaves the line empty, so that [compute] is called on
    what the buffer gives; it is empty from the second turn on. *)
Fixpoint main_loop (input : list string) (formatTokens : list token)
  : list float * ending :=
  match input with
  | [] =>
      match compute pow (returned (shuntingYard formatTokens)) with
      | Some expr => ([expr], NoDefinedResult)
      | None => ([], NoDefinedResult)
      end
  | exprStr :: input' =>
      if String.eqb exprStr "exit" then ([], NormalExit)
      else
        match lex_for stof exprStr formatTokens with
        | Fatal e => ([], LexerExit e)
        | Lexed formatTokens' =>
            match compute pow (returned (shuntingYard formatTokens')) with
            | None => ([], NoDefinedResult)
            | Some expr =>
                let '(printed, e) := main_loop input' [] in
                (expr :: printed, e)
            end
        end
  end.

Definition main (input : list string) : list float * ending :=
  main_loop input [].

(** The line is not the exit command and the driver prints [v] for it. *)
Definition prints (exprStr : string) (v : float) : Prop :=
  exprStr <> "exit" /\ evaluate pow stof exprStr = Prints v.

End Driver.

(** * Properties *)

(** ** Strings *)

Lemma str_app_nil_r (s : string) : (s ++ "")%string = s.
Proof. induction s as [|c s IH]; simpl; [reflexivity | now rewrite IH]. Qed.

Lemma str_app_assoc (a b c : string) : ((a ++ b) ++ c = a ++ (b ++ c))%string.
Proof. induction a as [|x a IH]; simpl; [reflexivity | now rewrite IH]. Qed.

(** ** Reorderer: tokens are moved, never made *)

Lemma pop_operators_incl o1 stack queue stack' queue' t :
  pop_operators o1 stack queue = (stack', queue') ->
  In t stack' \/ In t queue' -> In t stack \/ In t queue.
Proof.
  revert queue. induction stack as [|o2 stack IH]; intros queue; simpl.
  - intros [= <- <-]. tauto.
  - destruct (pops o1 o2).
    + intros E H. destruct (IH _ E H) as [H1 | H1]; [tauto|].
      apply in_app_or in H1. simpl in H1. tauto.
    + intros [= <- <-]. tauto.
Qed.

Lemma pop_to_lpa_incl stack queue m stack' queue' m' t :
  pop_to_lpa stack queue m = (stack', queue', m') ->
  In t stack' \/ In t queue' -> In t stack \/ In t queue.
Proof.
  revert queue m. induction stack as [|back stack IH]; intros queue m; simpl.
  - intros [= <- <- _]. tauto.
  - destruct (tokenType_eqb (type back) lpa).
    + intros [= <- <- _]. tauto.
    + intros E H. destruct (IH _ _ E H) as [H1 | H1]; [tauto|].
      apply in_app_or in H1. simpl in H1. tauto.
Qed.

Lemma drain_incl stack queue t :
  In t (returned (drain stack queue)) -> In t stack \/ In t queue.
Proof.
  revert queue. induction stack as [|back stack IH]; intros queue; simpl.
  - tauto.
  - destruct (tokenType_eqb (type back) lpa); simpl; [tauto|].
    intros H. destruct (IH _ H) as [H1 | H1]; [tauto|].
    apply in_app_or in H1. simpl in H1. tauto.
Qed.

Ltac op_case IH t :=
  match goal with
  | |- context [pop_operators ?o ?s ?q] =>
      let E := fresh "E" in
      let H := fresh "H" in
      destruct (pop_operators o s q) as [? ?] eqn:E;
      intros H; apply IH in H;
      pose proof (pop_operators_incl _ _ _ _ _ t E); simpl in H; tauto
  end.

Lemma sy_loop_incl tokens queue stack t :
  In t (returned (sy_loop tokens queue stack)) ->
  In t tokens \/ In t queue \/ In t stack.
Proof.
  revert queue stack.
  induction tokens as [|t0 tokens IH]; intros queue stack; simpl.
  - intros H. apply drain_incl in H. tauto.
  - destruct (type t0).
    + simpl. tauto.
    + intros H. apply IH in H. simpl in H. tauto.
    + destruct (pop_to_lpa stack queue false) as [[stack1 queue1] m] eqn:E.
      destruct (negb m && match stack1 with [] => true | _ :: _ => false end);
        [simpl; tauto|].
      intros H. apply IH in H.
      assert (In t stack1 \/ In t queue1 -> In t stack \/ In t queue)
        by (apply (pop_to_lpa_incl _ _ _ _ _ _ _ E)).
      destruct stack1; simpl in *; tauto.
    + op_case IH t. + op_case IH t. + op_case IH t.
    + op_case IH t. + op_case IH t. + op_case IH t.
    + intros H. apply IH in H. rewrite in_app_iff in H. simpl in H. tauto.
    + intros H. apply IH in H. rewrite in_app_iff in H. simpl in H. tauto.
Qed.

(** C9. Every token of the sequence [shuntingYard] returns is, field for
    field, a token of its input: the reorderer moves tokens between the
    input, the stack and the queue and never builds or changes one. *)
Theorem shuntingYard_returns_input_tokens (tokens : list token) :
  Forall (fun t => In t tokens) (returned (shuntingYard tokens)).
Proof.
  apply Forall_forall. intros t H.
  apply sy_loop_incl in H. simpl in H. tauto.
Qed.

(** ** Reorderer: the right parenthesis *)

(** On a right parenthesis met with an empty stack the error is reported. *)
Lemma rpa_on_empty_stack t tokens queue :
  type t = rpa -> sy_loop (t :: tokens) queue [] = RightParenthesisError t.
Proof. intros E. simpl. now rewrite E. Qed.

(** Once one operator has been moved the flag is set, and a stack that runs
    empty is no longer an error. *)
Lemma pop_to_lpa_no_lpa stack queue m :
  Forall (fun o => tokenType_eqb (type o) lpa = false) stack ->
  stack <> [] ->
  pop_to_lpa stack queue m = ([], queue ++ stack, true).
Proof.
  intros H. revert queue m.
  induction H as [|o stack Ho H IH]; intros queue m N; [congruence|].
  simpl. rewrite Ho. destruct stack as [|o' stack].
  - reflexivity.
  - rewrite IH by discriminate. now rewrite <- app_assoc.
Qed.

(** C2. The text ["1+2)"] has a right parenthesis that no left parenthesis
    matches; the operator [+] is moved to the queue first, the stack runs
    empty, and [shuntingYard] reports nothing: it returns the postfix
    sequence [1 2 +], which evaluates to 3.  So it is with every stack that
    holds operators and no left parenthesis; the error is reported when the
    stack is empty at the right parenthesis. *)
Theorem unmatched_right_paren_after_pop (pow : float -> float -> float)
        (stof : string -> option float) :
  reorder stof "1+2)" = Some (Postfix [tok_i32 1; tok_i32 2; tok_add])
  /\ evaluate pow stof "1+2)" = Prints (F32.of_Z 3)
  /\ (forall t tokens queue stack,
         type t = rpa ->
         Forall (fun o => tokenType_eqb (type o) lpa = false) stack ->
         stack <> [] ->
         sy_loop (t :: tokens) queue stack = sy_loop tokens (queue ++ stack) [])
  /\ (forall t tokens queue,
         type t = rpa ->
         sy_loop (t :: tokens) queue [] = RightParenthesisError t).
Proof.
  split; [reflexivity|]. split; [reflexivity|]. split.
  - intros t tokens queue stack E H N. simpl.
    rewrite E, (pop_to_lpa_no_lpa _ _ _ H N). reflexivity.
  - intros t tokens queue. apply rpa_on_empty_stack.
Qed.

(** ** Evaluator: modulo *)

(** C4. On a modulo operator [compute] takes the two operands off the stack
    and pushes nothing; the postfix sequence [7 3 %] leaves the stack empty
    and the program without a defined result. *)
Theorem modulo_pushes_nothing (pow : float -> float -> float)
        (stof : string -> option float) :
  (forall rhs lhs stack,
      compute_step pow tok_mod (rhs :: lhs :: stack) = Some stack)
  /\ reorder stof "7%3" = Some (Postfix [tok_i32 7; tok_i32 3; tok_mod])
  /\ compute_loop pow [tok_i32 7; tok_i32 3; tok_mod] [] = Some []
  /\ evaluate pow stof "7%3" = Undefined.
Proof. repeat split; reflexivity. Qed.

(** ** Reorderer: parenthesis errors *)

(** C5. For [")1+2"] the error of the right parenthesis is reported and the
    empty sequence returned.  For ["(1+2"] nothing is reported: the [+]
    sends the left parenthesis to the queue, so that none is on the stack at
    the end of the input, and the sequence [1 ( 2 +] is returned. *)
Theorem unclosed_left_paren_is_not_reported (pow : float -> float -> float)
        (stof : string -> option float) :
  reorder stof ")1+2" = Some (RightParenthesisError tok_rpa)
  /\ option_map returned (reorder stof ")1+2") = Some []
  /\ reorder stof "(1+2" = Some (Postfix [tok_i32 1; tok_lpa; tok_i32 2; tok_add])
  /\ evaluate pow stof "(1+2" = Prints (F32.of_Z 3)
  /\ (forall o1 stack queue,
         In o1 [tok_add; tok_sub; tok_mul; tok_div; tok_mod; tok_exp; tok_neg] ->
         pop_operators o1 (tok_lpa :: stack) queue
         = pop_operators o1 stack (queue ++ [tok_lpa])).
Proof.
  repeat split; try reflexivity.
  intros o1 stack queue H. simpl in H.
  repeat (destruct H as [<- | H]; [reflexivity|]). contradiction.
Qed.

(** ** Right associativity of the power operator *)

Lemma pops_right_assoc o1 o2 :
  rAssociative o1 = true ->
  pops o1 o2 = true <-> (precedence o1 < precedence o2)%N.
Proof.
  intros R. unfold pops. rewrite R. simpl. apply N.ltb_lt.
Qed.

Lemma pops_left_assoc o1 o2 :
  rAssociative o1 = false ->
  pops o1 o2 = true <-> (precedence o1 <= precedence o2)%N.
Proof.
  intros R. unfold pops. rewrite R. simpl. rewrite orb_false_r. apply N.leb_le.
Qed.

(** C6. ["2^3^2"] is reordered to [2 3 2 ^ ^] and evaluates to
    [pow 2 (pow 3 2)], which is 512 when [pow] is exact at these arguments.
    A right-associative operator sends the top of the stack to the queue
    only when its precedence is strictly lower, so a power operator leaves a
    power operator on the stack. *)
Theorem power_chain_groups_right (pow : float -> float -> float)
        (stof : string -> option float) :
  pow (F32.of_Z 3) (F32.of_Z 2) = F32.of_Z 9 ->
  pow (F32.of_Z 2) (F32.of_Z 9) = F32.of_Z 512 ->
  evaluate pow stof "2^3^2" = Prints (F32.of_Z 512)
  /\ reorder stof "2^3^2"
     = Some (Postfix [tok_i32 2; tok_i32 3; tok_i32 2; tok_exp; tok_exp])
  /\ (forall o1 o2, rAssociative o1 = true ->
                    pops o1 o2 = true <-> (precedence o1 < precedence o2)%N)
  /\ (forall stack queue,
         pop_operators tok_exp (tok_exp :: stack) queue = (tok_exp :: stack, queue)).
Proof.
  intros H32 H29. split; [|split; [reflexivity|split]].
  - vm_compute in H32, H29 |- *. rewrite H32, H29. reflexivity.
  - apply pops_right_assoc.
  - reflexivity.
Qed.

Lemma power_chain_groups_right_witness :
  (Ref.pow (F32.of_Z 3) (F32.of_Z 2) = F32.of_Z 9
   /\ Ref.pow (F32.of_Z 2) (F32.of_Z 9) = F32.of_Z 512)
  /\ evaluate Ref.pow Ref.stof "2^3^2" = Prints (F32.of_Z 512).
Proof.
  split; [split; reflexivity|].
  apply (power_chain_groups_right Ref.pow Ref.stof); reflexivity.
Defined.

(** ** Unary minus *)

Lemma minus_is_unary_iff (formatTokens : list token) :
  minus_is_unary formatTokens = true <->
  formatTokens = [] \/
  exists front back,
    formatTokens = front ++ [back] /\
    In (type back) [add; sub; div; mul; mod_t; exp; lpa].
Proof.
  unfold minus_is_unary.
  destruct formatTokens as [|t0 toks] using rev_ind.
  - simpl. tauto.
  - rewrite rev_unit. split.
    + intros H. right. exists toks, t0. split; [reflexivity|].
      destruct (type t0); simpl; try discriminate; tauto.
    + intros [H | (front & back & E & H)].
      * destruct toks; discriminate.
      * apply app_inj_tail in E. destruct E as [_ <-].
        simpl in H. decompose [or] H; try contradiction;
          match goal with E : _ = type _ |- _ => rewrite <- E end; reflexivity.
Qed.

Lemma lex_unary_minus stof rest formatTokens :
  minus_is_unary formatTokens = true ->
  lex_again stof (String "-" rest) formatTokens
  = lex_for stof rest (formatTokens ++ [tok_neg]).
Proof. intros H. simpl. rewrite H. reflexivity. Qed.

Lemma lex_binary_minus stof rest formatTokens :
  minus_is_unary formatTokens = false ->
  lex_again stof (String "-" rest) formatTokens
  = lex_for stof rest (formatTokens ++ [tok_sub]).
Proof. intros H. simpl. rewrite H. reflexivity. Qed.

(** C7. ["-3^2"] is reordered to [3 m 2 ^] and evaluates to [pow (-3) 2],
    which is 9 when [pow] is exact there.  A [-] that is the first token, or
    that follows an operator or a left parenthesis, becomes the unary token
    of precedence 5; the power operator, of precedence 4, sends it to the
    queue, so that the sign is changed before the power is taken. *)
Theorem unary_minus_binds_tighter_than_power (pow : float -> float -> float)
        (stof : string -> option float) :
  pow (F32.of_Z (-3)) (F32.of_Z 2) = F32.of_Z 9 ->
  evaluate pow stof "-3^2" = Prints (F32.of_Z 9)
  /\ reorder stof "-3^2" = Some (Postfix [tok_i32 3; tok_neg; tok_i32 2; tok_exp])
  /\ (forall formatTokens,
         minus_is_unary formatTokens = true <->
         formatTokens = [] \/
         exists front back,
           formatTokens = front ++ [back] /\
           In (type back) [add; sub; div; mul; mod_t; exp; lpa])
  /\ (forall rest formatTokens,
         minus_is_unary formatTokens = true ->
         lex_again stof (String "-" rest) formatTokens
         = lex_for stof rest (formatTokens ++ [tok_neg]))
  /\ (unary tok_neg = true /\ type tok_neg = sub /\ precedence tok_neg = 5%N
      /\ precedence tok_exp = 4%N /\ pops tok_exp tok_neg = true).
Proof.
  intros H. split; [|split; [reflexivity|split; [|split]]].
  - vm_compute in H |- *. rewrite H. reflexivity.
  - apply minus_is_unary_iff.
  - intros rest formatTokens. apply lex_unary_minus.
  - repeat split; reflexivity.
Qed.

Lemma unary_minus_binds_tighter_than_power_witness :
  Ref.pow (F32.of_Z (-3)) (F32.of_Z 2) = F32.of_Z 9
  /\ evaluate Ref.pow Ref.stof "-3^2" = Prints (F32.of_Z 9).
Proof.
  split; [reflexivity|].
  apply (unary_minus_binds_tighter_than_power Ref.pow Ref.stof); reflexivity.
Defined.

(** ** Evaluator: the empty sequence *)

(** C10. On the empty sequence the value stack of [compute] is empty when
    its loop ends, and the read of its top has no defined result.  This is
    what the driver passes to [compute] whenever [shuntingYard] reports an
    error, as for the texts [")1+2"] and ["(1"]. *)
Theorem compute_empty_is_undefined (pow : float -> float -> float)
        (stof : string -> option float) :
  compute_loop pow [] [] = Some []
  /\ compute pow [] = None
  /\ (forall tokens,
         match shuntingYard tokens with
         | Postfix _ => True
         | r => compute pow (returned r) = None
         end)
  /\ reorder stof ")1+2" = Some (RightParenthesisError tok_rpa)
  /\ evaluate pow stof ")1+2" = Undefined
  /\ reorder stof "(1" = Some MismatchedParentheses
  /\ evaluate pow stof "(1" = Undefined.
Proof.
  repeat split; try reflexivity.
  intros tokens. destruct (shuntingYard tokens); simpl; auto.
Qed.

(** ** Lexer: numeric literals *)

Section LexerFacts.

Variable stof : string -> option float.

Lemma scan_number_eq k c rest ty floatStr :
  scan_number k (String c rest) ty floatStr
  = if Ascii.eqb c "_" then scan_number k rest ty floatStr
    else if Ascii.eqb c "." then
           if tokenType_eqb ty f32 then Fatal RedefinitionOfFloat
           else scan_number k rest f32 (append_char floatStr ".")
    else if isdigit c then scan_number k rest ty (append_char floatStr c)
    else k (String c rest) ty floatStr.
Proof. reflexivity. Qed.

Lemma scan_number_stops k rest ty floatStr :
  stops rest -> scan_number k rest ty floatStr = k rest ty floatStr.
Proof.
  destruct rest as [|c rest]; [reflexivity|]. simpl. unfold literal_char.
  intros H. apply orb_false_elim in H. destruct H as [H Hdot].
  apply orb_false_elim in H. destruct H as [Hdig Hund].
  rewrite Hund, Hdot, Hdig. reflexivity.
Qed.

Lemma scan_number_app k s rest ty floatStr :
  all_chars literal_char s = true -> stops rest ->
  scan_number k (s ++ rest) ty floatStr
  = match scan_text s ty floatStr with
    | Some (ty', floatStr') => k rest ty' floatStr'
    | None => Fatal RedefinitionOfFloat
    end.
Proof.
  intros Hs Hrest. revert ty floatStr Hs.
  induction s as [|c s IH]; intros ty floatStr Hs.
  - simpl. now apply scan_number_stops.
  - simpl in Hs. apply andb_true_iff in Hs. destruct Hs as [Hc Hs].
    change (String c s ++ rest)%string with (String c (s ++ rest)).
    rewrite scan_number_eq. simpl.
    unfold literal_char in Hc.
    destruct (Ascii.eqb c "_"); [now apply IH|].
    destruct (Ascii.eqb c ".").
    + destruct (tokenType_eqb ty f32); [reflexivity | now apply IH].
    + rewrite !orb_false_r in Hc. rewrite Hc. now apply IH.
Qed.

Lemma isdigit_cases c :
  isdigit c = true ->
  In c ["0"; "1"; "2"; "3"; "4"; "5"; "6"; "7"; "8"; "9"]%char.
Proof.
  destruct c as [[] [] [] [] [] [] [] []]; intros H;
    try discriminate H; simpl; tauto.
Qed.

Lemma lex_again_digit c rest formatTokens :
  isdigit c = true ->
  lex_again stof (String c rest) formatTokens
  = scan_number
      (fun s' ty floatStr =>
         finish_literal stof formatTokens ty floatStr (lex_for stof s'))
      rest i32 (String c "").
Proof.
  intros H. apply isdigit_cases in H. simpl in H.
  repeat (destruct H as [<- | H]; [reflexivity|]). contradiction.
Qed.

Lemma lex_again_dot d rest formatTokens :
  isdigit d = true ->
  lex_again stof (String "." (String d rest)) formatTokens
  = scan_number
      (fun s' ty floatStr =>
         finish_literal stof formatTokens ty floatStr (lex_for stof s'))
      (String d rest) f32 ".".
Proof. intros H. simpl. rewrite H. reflexivity. Qed.

Lemma isdigit_not_dot c : isdigit c = true -> Ascii.eqb c "." = false.
Proof.
  intros H. apply isdigit_cases in H. simpl in H.
  repeat (destruct H as [<- | H]; [reflexivity|]). contradiction.
Qed.

Lemma isdigit_not_underscore c : isdigit c = true -> Ascii.eqb c "_" = false.
Proof.
  intros H. apply isdigit_cases in H. simpl in H.
  repeat (destruct H as [<- | H]; [reflexivity|]). contradiction.
Qed.

(** The lexer on a numeric literal followed by anything that is not part
    of it. *)
Lemma lex_literal s rest formatTokens :
  literal_text s = true -> stops rest ->
  lex_again stof (s ++ rest) formatTokens
  = match literal_scan s with
    | Some (ty, floatStr) =>
        finish_literal stof formatTokens ty floatStr (lex_for stof rest)
    | None => Fatal RedefinitionOfFloat
    end.
Proof.
  intros Hs Hrest. destruct s as [|c s]; [discriminate|].
  simpl in Hs. unfold literal_scan.
  destruct (isdigit c) eqn:Hc.
  - change (String c s ++ rest)%string with (String c (s ++ rest)).
    rewrite (lex_again_digit _ _ _ Hc).
    rewrite (scan_number_app _ _ _ _ _ Hs Hrest).
    destruct (scan_text s i32 (String c "")) as [[ty fs]|]; reflexivity.
  - destruct (Ascii.eqb_spec c "."); [subst c | discriminate].
    destruct s as [|d s]; [discriminate|].
    apply andb_true_iff in Hs. destruct Hs as [Hd Hs].
    change (String "." (String d s) ++ rest)%string
      with (String "." (String d (s ++ rest))).
    rewrite (lex_again_dot _ _ _ Hd).
    change (String d (s ++ rest)) with (String d s ++ rest)%string.
    rewrite (scan_number_app _ _ _ _ _ Hs Hrest).
    destruct (scan_text (String d s) f32 ".") as [[ty fs]|]; reflexivity.
Qed.

Lemma scan_text_spec s ty floatStr ty' floatStr' :
  scan_text s ty floatStr = Some (ty', floatStr') ->
  floatStr' = (floatStr ++ strip_underscores s)%string
  /\ ty' = if has_dot s then f32 else ty.
Proof.
  revert ty floatStr. induction s as [|c s IH]; intros ty floatStr; simpl.
  - intros [= <- <-]. now rewrite str_app_nil_r.
  - destruct (Ascii.eqb c "_") eqn:Hund.
    + destruct (Ascii.eqb_spec c "_"); [subst c | discriminate].
      simpl. apply IH.
    + destruct (Ascii.eqb c ".") eqn:Hdot; simpl.
      * destruct (tokenType_eqb ty f32); [discriminate|].
        intros H. apply IH in H. destruct H as [-> ->].
        destruct (Ascii.eqb_spec c "."); [subst c | discriminate].
        unfold append_char. rewrite str_app_assoc.
        split; [reflexivity | now destruct (has_dot s)].
      * intros H. apply IH in H. destruct H as [-> ->].
        unfold append_char. rewrite str_app_assoc. split; reflexivity.
Qed.

(** The text that is converted is the literal without its underscores,
    and the literal is a float exactly when it has a decimal point. *)
Lemma literal_scan_spec s ty floatStr :
  literal_text s = true ->
  literal_scan s = Some (ty, floatStr) ->
  floatStr = strip_underscores s /\ ty = if has_dot s then f32 else i32.
Proof.
  destruct s as [|c s]; [discriminate|]. unfold literal_scan. simpl.
  destruct (isdigit c) eqn:Hc.
  - intros _ H. apply scan_text_spec in H. destruct H as [-> ->].
    rewrite (isdigit_not_underscore _ Hc), (isdigit_not_dot _ Hc).
    split; reflexivity.
  - destruct (Ascii.eqb_spec c "."); [subst c | discriminate].
    intros _ H. apply scan_text_spec in H. destruct H as [-> ->].
    simpl. split; [reflexivity | now destruct (has_dot s)].
Qed.

Lemma lex_nonempty s : s <> EmptyString -> lex stof s = lex_again stof s [].
Proof. destruct s; [congruence | reflexivity]. Qed.

Lemma literal_text_nonempty s : literal_text s = true -> s <> EmptyString.
Proof. destruct s; [discriminate | discriminate]. Qed.

Lemma lex_single_literal s t :
  literal_text s = true -> lex stof s = Lexed [t] ->
  exists ty floatStr,
    literal_scan s = Some (ty, floatStr)
    /\ finish_literal stof [] ty floatStr Lexed = Lexed [t].
Proof.
  intros Hs H.
  rewrite (lex_nonempty _ (literal_text_nonempty _ Hs)) in H.
  rewrite <- (str_app_nil_r s) in H.
  rewrite (lex_literal s "" [] Hs I) in H.
  destruct (literal_scan s) as [[ty fs]|]; [|discriminate].
  exists ty, fs. split; [reflexivity | exact H].
Qed.

Lemma literal_token_kind s t :
  literal_text s = true -> lex stof s = Lexed [t] ->
  (has_dot s = true /\ type t = f32
   /\ stof (strip_underscores s) = Some (fltData t))
  \/ (has_dot s = false /\ type t = i32
      /\ stoi (strip_underscores s) = Some (intData t)).
Proof.
  intros Hs H. destruct (lex_single_literal _ _ Hs H) as (ty & fs & Hscan & Hfin).
  destruct (literal_scan_spec _ _ _ Hs Hscan) as [-> ->].
  unfold finish_literal in Hfin.
  destruct (has_dot s); simpl in Hfin.
  - left. destruct (stof (strip_underscores s)); [|discriminate].
    injection Hfin as <-. auto.
  - right. destruct (stoi (strip_underscores s)); [|discriminate].
    injection Hfin as <-. auto.
Qed.

(** A literal is lexed to the same token wherever it stands. *)
Lemma lex_spelled_literal s t rest formatTokens :
  literal_text s = true -> lex stof s = Lexed [t] -> stops rest ->
  lex_again stof (s ++ rest) formatTokens
  = lex_for stof rest (formatTokens ++ [t]).
Proof.
  intros Hs H Hrest.
  destruct (lex_single_literal _ _ Hs H) as (ty & fs & Hscan & Hfin).
  rewrite (lex_literal _ _ _ Hs Hrest), Hscan.
  unfold finish_literal in *.
  destruct (tokenType_eqb ty f32).
  - destruct (stof fs); [|discriminate]. injection Hfin as <-. reflexivity.
  - destruct (stoi fs); [|discriminate]. injection Hfin as <-. reflexivity.
Qed.

End LexerFacts.

(** C8. ["3.14"] is lexed to one float token whose value is the conversion
    of the text ["3.14"]; ["3_000"] to one integer token of value 3000;
    ["3.1.4"] ends the process at its second decimal point.  In general the
    token of a literal is a float when the literal has a decimal point and
    an integer otherwise, and its value is the conversion of the literal
    with its underscores left out. *)
Theorem numeric_literals (stof : string -> option float) (x : float) :
  stof "3.14" = Some x ->
  lex stof "3.14" = Lexed [tok_f32 x]
  /\ lex stof "3_000" = Lexed [tok_i32 3000]
  /\ lex stof "3.1.4" = Fatal RedefinitionOfFloat
  /\ (forall s t,
         literal_text s = true -> lex stof s = Lexed [t] ->
         (has_dot s = true /\ type t = f32
          /\ stof (strip_underscores s) = Some (fltData t))
         \/ (has_dot s = false /\ type t = i32
             /\ stoi (strip_underscores s) = Some (intData t))).
Proof.
  intros H. split; [|split; [reflexivity|split; [reflexivity|]]].
  - vm_compute. vm_compute in H. rewrite H. reflexivity.
  - apply literal_token_kind.
Qed.

Lemma numeric_literals_witness :
  Ref.stof "3.14" = Some (S754_finite false 13170115 (-22))
  /\ lex Ref.stof "3.14" = Lexed [tok_f32 (S754_finite false 13170115 (-22))].
Proof.
  split; [reflexivity|].
  apply (numeric_literals Ref.stof (S754_finite false 13170115 (-22))).
  reflexivity.
Defined.

(** ** Lexer: whitespace *)

Section Whitespace.

Variable stof : string -> option float.

Lemma lex_again_eq c rest formatTokens :
  lex_again stof (String c rest) formatTokens
  = if is_space c then lex_again stof rest formatTokens
    else if Ascii.eqb c "(" then lex_for stof rest (formatTokens ++ [tok_lpa])
    else if Ascii.eqb c ")" then lex_for stof rest (formatTokens ++ [tok_rpa])
    else if Ascii.eqb c "+" then lex_for stof rest (formatTokens ++ [tok_add])
    else if Ascii.eqb c "-" then
           if minus_is_unary formatTokens
           then lex_for stof rest (formatTokens ++ [tok_neg])
           else lex_for stof rest (formatTokens ++ [tok_sub])
    else if Ascii.eqb c "/" then lex_for stof rest (formatTokens ++ [tok_div])
    else if Ascii.eqb c "*" || Ascii.eqb c "x"
         then lex_for stof rest (formatTokens ++ [tok_mul])
    else if Ascii.eqb c "%" then lex_for stof rest (formatTokens ++ [tok_mod])
    else if Ascii.eqb c "^" then lex_for stof rest (formatTokens ++ [tok_exp])
    else if isdigit c then
           scan_number
             (fun s' ty floatStr =>
                finish_literal stof formatTokens ty floatStr (lex_for stof s'))
             rest i32 (String c "")
    else if Ascii.eqb c "." then
           match rest with
           | String d rest' =>
               if isdigit d
               then scan_number
                      (fun s' ty floatStr =>
                         finish_literal stof formatTokens ty floatStr (lex_for stof s'))
                      rest f32 "."
               else Fatal UnexpectedDot
           | EmptyString => Fatal UnexpectedDot
           end
    else Fatal (Unexpected c).
Proof. reflexivity. Qed.

(** Whitespace before a character of the input is skipped. *)
Lemma lex_skip_spaces ws s formatTokens :
  all_chars is_space ws = true ->
  lex_again stof (ws ++ s) formatTokens = lex_again stof s formatTokens.
Proof.
  induction ws as [|c ws IH]; [reflexivity|]. simpl all_chars.
  intros H. apply andb_true_iff in H. destruct H as [Hc Hws].
  change (String c ws ++ s)%string with (String c (ws ++ s)).
  rewrite lex_again_eq, Hc. now apply IH.
Qed.

(** Whitespace at the end of the input is skipped too, past the loop test:
    the terminating NUL is read. *)
Lemma lex_spaces_only ws formatTokens :
  all_chars is_space ws = true ->
  lex_again stof ws formatTokens = Fatal (Unexpected zero).
Proof.
  intros H. rewrite <- (str_app_nil_r ws). now rewrite lex_skip_spaces.
Qed.

Lemma literal_char_not_space c : literal_char c = true -> is_space c = false.
Proof.
  unfold literal_char. intros H.
  apply orb_true_iff in H. destruct H as [H | H].
  - apply orb_true_iff in H. destruct H as [H | H].
    + apply isdigit_cases in H. simpl in H.
      repeat (destruct H as [<- | H]; [reflexivity|]). contradiction.
    + destruct (Ascii.eqb_spec c "_"); [subst c; reflexivity | discriminate].
  - destruct (Ascii.eqb_spec c "."); [subst c; reflexivity | discriminate].
Qed.

Lemma ends_in_space_tail c rest :
  is_space c = false -> ends_in_space (String c rest) = true ->
  ends_in_space rest = true.
Proof. destruct rest; simpl; [congruence | auto]. Qed.

Lemma ends_in_space_nonempty s : ends_in_space s = true -> s <> EmptyString.
Proof. destruct s; [discriminate | discriminate]. Qed.

(** The scan of a literal ends the process or hands over the rest of the
    input; the rest still ends with the whitespace the input ends with. *)
Lemma scan_number_cases k s ty floatStr :
  scan_number k s ty floatStr = Fatal RedefinitionOfFloat
  \/ exists s' ty' floatStr',
      scan_number k s ty floatStr = k s' ty' floatStr'
      /\ (String.length s' <= String.length s)%nat
      /\ (ends_in_space s = true -> ends_in_space s' = true).
Proof.
  revert ty floatStr. induction s as [|c s IH]; intros ty floatStr.
  - right. exists "", ty, floatStr. auto.
  - rewrite scan_number_eq.
    assert (Step : forall ty1 fs1,
               scan_number k s ty1 fs1 = Fatal RedefinitionOfFloat
               \/ exists s' ty' floatStr',
                   scan_number k s ty1 fs1 = k s' ty' floatStr'
                   /\ (String.length s' <= String.length (String c s))%nat
                   /\ (is_space c = false ->
                       ends_in_space (String c s) = true ->
                       ends_in_space s' = true)).
    { intros ty1 fs1. destruct (IH ty1 fs1) as [E | (s' & ty' & fs' & E & L & P)];
        [now left | right].
      exists s', ty', fs'. split; [exact E | split; [simpl; lia|]].
      intros Hc H. apply P. now apply (ends_in_space_tail c). }
    assert (Lit : literal_char c = true ->
                  forall ty1 fs1,
                    scan_number k s ty1 fs1 = Fatal RedefinitionOfFloat
                    \/ exists s' ty' floatStr',
                        scan_number k s ty1 fs1 = k s' ty' floatStr'
                        /\ (String.length s' <= String.length (String c s))%nat
                        /\ (ends_in_space (String c s) = true ->
                            ends_in_space s' = true)).
    { intros Hc ty1 fs1.
      destruct (Step ty1 fs1) as [E | (s' & ty' & fs' & E & L & P)];
        [now left | right].
      exists s', ty', fs'. auto using literal_char_not_space. }
    unfold literal_char in Lit.
    destruct (Ascii.eqb c "_").
    { apply Lit. now rewrite orb_true_r. }
    destruct (Ascii.eqb c ".").
    { destruct (tokenType_eqb ty f32); [now left|].
      apply Lit. now rewrite orb_true_r. }
    destruct (isdigit c).
    { now apply Lit. }
    right. exists (String c s), ty, floatStr. auto.
Qed.

Lemma lex_for_trailing s formatTokens :
  ends_in_space s = true ->
  lex_for stof s formatTokens = lex_again stof s formatTokens.
Proof. destruct s; [discriminate | reflexivity]. Qed.

(** No text that ends with a whitespace character is accepted. *)
Lemma lex_again_trailing_space n :
  forall s formatTokens,
    (String.length s <= n)%nat -> ends_in_space s = true ->
    exists e, lex_again stof s formatTokens = Fatal e.
Proof.
  induction n as [|n IH]; intros s toks L H.
  - destruct s; [discriminate | simpl in L; lia].
  - destruct s as [|c rest]; [discriminate|]. simpl in L.
    assert (Number : forall ty0 fs0,
               (ends_in_space rest = true) ->
               exists e,
                 scan_number
                   (fun s' ty floatStr =>
                      finish_literal stof toks ty floatStr (lex_for stof s'))
                   rest ty0 fs0 = Fatal e).
    { intros ty0 fs0 Hr.
      destruct (scan_number_cases
                  (fun s' ty floatStr =>
                     finish_literal stof toks ty floatStr (lex_for stof s'))
                  rest ty0 fs0)
        as [-> | (s' & ty' & fs' & -> & L' & P)]; [eauto|].
      specialize (P Hr). unfold finish_literal.
      destruct (tokenType_eqb ty' f32).
      - destruct (stof fs'); [|eauto].
        rewrite lex_for_trailing by assumption. apply IH; [lia | assumption].
      - destruct (stoi fs'); [|eauto].
        rewrite lex_for_trailing by assumption. apply IH; [lia | assumption]. }
    rewrite lex_again_eq.
    destruct (is_space c) eqn:Hc.
    { destruct rest as [|d rest]; [simpl; eauto|].
      apply IH; [lia | exact H]. }
    pose proof (ends_in_space_tail _ _ Hc H) as Hr.
    assert (Next : forall toks', exists e, lex_for stof rest toks' = Fatal e).
    { intros toks'. rewrite lex_for_trailing by assumption.
      apply IH; [lia | assumption]. }
    repeat match goal with
           | |- context [if ?b then _ else _] =>
               lazymatch b with
               | isdigit _ => fail
               | _ =>
                   destruct b;
                   [solve [apply Next
                          | destruct (minus_is_unary toks); apply Next] |]
               end
           end.
    destruct (isdigit c); [now apply Number|].
    destruct (Ascii.eqb c "."); [|eauto].
    destruct rest as [|d rest']; [eauto|].
    destruct (isdigit d); [now apply Number | eauto].
Qed.

End Whitespace.

(** C3. The lexer accepts ["1+2"] and the text [" 1 + 2"], with the same
    tokens: whitespace that stands before a character of the input is
    skipped and gives no token.  Whitespace at the end of the input is not:
    the lexer goes past it to the terminating NUL, which is an unexpected
    character, and the process exits.  So [" 1 + 2 "] is not evaluated, and
    no text that ends with a whitespace character is accepted. *)
Theorem trailing_whitespace_is_fatal (pow : float -> float -> float)
        (stof : string -> option float) :
  lex stof "1+2" = Lexed [tok_i32 1; tok_add; tok_i32 2]
  /\ lex stof " 1 + 2" = Lexed [tok_i32 1; tok_add; tok_i32 2]
  /\ lex stof " 1 + 2 " = Fatal (Unexpected zero)
  /\ evaluate pow stof "1+2" = Prints (F32.of_Z 3)
  /\ evaluate pow stof " 1 + 2 " = Exits (Unexpected zero)
  /\ (forall ws s formatTokens,
         all_chars is_space ws = true ->
         lex_again stof (ws ++ s) formatTokens = lex_again stof s formatTokens)
  /\ (forall text,
         ends_in_space text = true -> exists e, lex stof text = Fatal e).
Proof.
  repeat split; try reflexivity.
  - apply lex_skip_spaces.
  - intros text H. unfold lex. rewrite lex_for_trailing by assumption.
    now apply (lex_again_trailing_space stof (String.length text)).
Qed.

(** ** Lexer: the text of an expression *)

Section LexRender.

Variable stof : string -> option float.

Lemma spelled_typed e : spelled stof e -> typed e.
Proof.
  induction e as [s t | e IH | op l IHl r IHr | e IH | b e IH a]; simpl; auto.
  - intros [Hs H].
    destruct (literal_token_kind stof _ _ Hs H) as [(_ & E & _) | (_ & E & _)]; auto.
  - intros [Hl Hr]. auto.
  - intros (_ & _ & H). auto.
Qed.

Lemma render_nonempty e :
  spelled stof e -> exists c s, render e = String c s.
Proof.
  induction e as [s t | e IH | op l IHl r IHr | e IH | b e IH a]; simpl.
  - intros [Hs _]. destruct s as [|c s]; [discriminate | eauto].
  - eauto.
  - intros [Hl _]. destruct (IHl Hl) as (c & s & ->). simpl. eauto.
  - eauto.
  - intros (_ & _ & H). destruct (IH H) as (c & s & ->).
    destruct b; simpl; eauto.
Qed.

Lemma lex_for_render e rest formatTokens :
  spelled stof e ->
  lex_for stof (render e ++ rest) formatTokens
  = lex_again stof (render e ++ rest) formatTokens.
Proof.
  intros H. destruct (render_nonempty e H) as (c & s & ->). reflexivity.
Qed.

(** The last token of an expression is a literal or a right parenthesis,
    so that a [-] that follows is a subtraction. *)
Lemma tokens_of_last e :
  typed e ->
  exists front back,
    tokens_of e = front ++ [back]
    /\ (type back = i32 \/ type back = f32 \/ type back = rpa).
Proof.
  induction e as [s t | e IH | op l IHl r IHr | e IH | b e IH a]; simpl.
  - intros H. exists [], t. split; [reflexivity | tauto].
  - intros H. destruct (IH H) as (front & back & -> & Hb).
    exists (tok_neg :: front), back. auto.
  - intros [_ H]. destruct (IHr H) as (front & back & -> & Hb).
    exists (tokens_of l ++ op_token op :: front), back.
    split; [now rewrite <- app_assoc | exact Hb].
  - intros _. exists (tok_lpa :: tokens_of e), tok_rpa. auto.
  - exact IH.
Qed.

Lemma minus_after_operand e formatTokens :
  typed e -> minus_is_unary (formatTokens ++ tokens_of e) = false.
Proof.
  intros H. destruct (tokens_of_last e H) as (front & back & -> & Hb).
  unfold minus_is_unary. rewrite app_assoc, rev_unit.
  destruct Hb as [-> | [-> | ->]]; reflexivity.
Qed.

Lemma minus_after_token formatTokens t :
  In (type t) [add; sub; div; mul; mod_t; exp; lpa] ->
  minus_is_unary (formatTokens ++ [t]) = true.
Proof.
  intros H. apply minus_is_unary_iff. right. eauto.
Qed.

Lemma stops_op_char op s : stops (String (op_char op) s).
Proof. destruct op; reflexivity. Qed.

(** The operator characters other than [-]. *)
Lemma lex_again_binop op rest formatTokens :
  minus_is_unary formatTokens = false ->
  lex_again stof (String (op_char op) rest) formatTokens
  = lex_for stof rest (formatTokens ++ [op_token op]).
Proof.
  intros H. destruct op; try reflexivity. now apply lex_binary_minus.
Qed.

Lemma stops_spaces ws rest :
  all_chars is_space ws = true -> stops rest -> stops (ws ++ rest).
Proof.
  destruct ws as [|c ws]; [auto|]. simpl. intros H _.
  apply andb_true_iff in H. destruct H as [Hc _].
  destruct (literal_char c) eqn:E; [|reflexivity].
  apply literal_char_not_space in E. congruence.
Qed.

Lemma lex_for_spaces ws rest formatTokens :
  all_chars is_space ws = true -> rest <> EmptyString ->
  lex_for stof (ws ++ rest) formatTokens = lex_for stof rest formatTokens.
Proof.
  intros H N. destruct rest as [|c rest]; [congruence|].
  destruct ws as [|x ws]; [reflexivity|].
  change (lex_for stof (String x ws ++ String c rest) formatTokens)
    with (lex_again stof (String x ws ++ String c rest) formatTokens).
  now rewrite lex_skip_spaces.
Qed.

(** The text of an expression, at a place where an operand may stand, is
    lexed to the tokens of the expression, provided that something follows
    the whitespace the text ends with. *)
Lemma lex_render e :
  spelled stof e ->
  forall rest formatTokens,
    stops rest -> minus_is_unary formatTokens = true ->
    rest <> EmptyString \/ trailing e = false ->
    lex_again stof (render e ++ rest) formatTokens
    = lex_for stof rest (formatTokens ++ tokens_of e).
Proof.
  induction e as [s t | e IH | op l IHl r IHr | e IH | b e IH a];
    intros He rest toks Hrest Hun Hend;
    cbn [render tokens_of spelled trailing] in *.
  - destruct He as [Hs H]. now apply lex_spelled_literal.
  - change (String "-" (render e) ++ rest)%string
      with (String "-" (render e ++ rest)).
    rewrite (lex_unary_minus _ _ _ Hun), lex_for_render by assumption.
    rewrite IH; auto.
    + now rewrite <- app_assoc.
    + apply minus_after_token. simpl. tauto.
  - destruct He as [Hl Hr]. rewrite str_app_assoc.
    change (String (op_char op) (render r) ++ rest)%string
      with (String (op_char op) (render r ++ rest)).
    rewrite IHl; auto using stops_op_char; [|left; discriminate].
    change (lex_for stof (String (op_char op) (render r ++ rest)) (toks ++ tokens_of l))
      with (lex_again stof (String (op_char op) (render r ++ rest)) (toks ++ tokens_of l)).
    rewrite lex_again_binop
      by (apply minus_after_operand; now apply spelled_typed).
    rewrite lex_for_render by assumption.
    rewrite IHr; auto.
    + rewrite <- !app_assoc. reflexivity.
    + apply minus_after_token. destruct op; simpl; tauto.
  - change (String "(" (render e ++ ")") ++ rest)%string
      with (String "(" ((render e ++ ")") ++ rest)).
    rewrite str_app_assoc.
    change (lex_again stof (String "(" (render e ++ ")" ++ rest)) toks)
      with (lex_for stof (render e ++ ")" ++ rest) (toks ++ [tok_lpa])).
    rewrite lex_for_render by assumption.
    rewrite IH; auto.
    + change (")" ++ rest)%string with (String ")" rest).
      change (lex_for stof (String ")" rest) ((toks ++ [tok_lpa]) ++ tokens_of e))
        with (lex_for stof rest (((toks ++ [tok_lpa]) ++ tokens_of e) ++ [tok_rpa])).
      rewrite <- !app_assoc. reflexivity.
    + reflexivity.
    + apply minus_after_token. simpl. tauto.
    + left. discriminate.
  - destruct He as (Hb & Ha & He).
    rewrite !str_app_assoc, lex_skip_spaces by assumption.
    rewrite IH; auto using stops_spaces.
    + destruct a as [|x a]; [reflexivity|].
      apply lex_for_spaces; [assumption|].
      destruct Hend as [N | N]; [exact N | discriminate N].
    + destruct a as [|x a]; [exact Hend | left; discriminate].
Qed.

Lemma lex_render_expr e :
  spelled stof e -> trailing e = false ->
  lex stof (render e) = Lexed (tokens_of e).
Proof.
  intros H T. unfold lex.
  rewrite <- (str_app_nil_r (render e)), lex_for_render by assumption.
  rewrite (lex_render e H "" []); [reflexivity | exact I | reflexivity | now right].
Qed.

Lemma ends_in_space_app a b :
  ends_in_space b = true -> ends_in_space (a ++ b) = true.
Proof.
  intros H. induction a as [|c a IH]; [exact H|].
  change (String c a ++ b)%string with (String c (a ++ b)).
  destruct (a ++ b)%string eqn:E; [discriminate IH | exact IH].
Qed.

Lemma ends_in_space_spaces ws :
  all_chars is_space ws = true -> ws <> EmptyString ->
  ends_in_space ws = true.
Proof.
  induction ws as [|c ws IH]; [congruence|]. simpl.
  intros H _. apply andb_true_iff in H. destruct H as [Hc Hws].
  destruct ws; [exact Hc | apply IH; [exact Hws | discriminate]].
Qed.

Lemma trailing_ends_in_space e :
  spelled stof e -> trailing e = true -> ends_in_space (render e) = true.
Proof.
  induction e as [s t | e IH | op l IHl r IHr | e IH | b e IH a];
    cbn [spelled trailing render]; intros S T; try discriminate.
  - apply (ends_in_space_app "-"). auto.
  - destruct S as [_ Sr].
    apply ends_in_space_app, (ends_in_space_app (String (op_char op) "")). auto.
  - destruct S as (_ & Ha & S). apply ends_in_space_app.
    destruct a as [|x a].
    + rewrite str_app_nil_r. auto.
    + apply ends_in_space_app, ends_in_space_spaces; [exact Ha | discriminate].
Qed.

(** The lexer accepts the text of an expression when it does not end with
    whitespace, and only then. *)
Lemma accepted_iff_not_trailing e :
  spelled stof e -> accepted stof (render e) <-> trailing e = false.
Proof.
  intros S. split.
  - intros [toks L]. destruct (trailing e) eqn:T; [|reflexivity].
    pose proof (trailing_ends_in_space e S T) as E.
    unfold lex in L. rewrite lex_for_trailing in L by assumption.
    destruct (lex_again_trailing_space stof _ (render e) [] (le_n _) E) as [x F].
    congruence.
  - intros T. exists (tokens_of e). now apply lex_render_expr.
Qed.

End LexRender.

(** ** Reorderer: expressions without the defective cases *)

Lemma ops_of_shape e x :
  In x (ops_of e) -> x = tok_neg \/ exists op, x = op_token op.
Proof.
  induction e as [s t | e IH | op l IHl r IHr | e IH | b e IH a];
    simpl; try tauto.
  - intros [<- | H]; auto.
  - intros H. apply in_app_or in H. destruct H as [H | [<- | H]]; eauto.
Qed.

Lemma ops_of_not_lpa e :
  Forall (fun o => tokenType_eqb (type o) lpa = false) (ops_of e).
Proof.
  apply Forall_forall. intros x H.
  destruct (ops_of_shape e x H) as [-> | [op ->]]; [|destruct op]; reflexivity.
Qed.

(** Every operator of an expression that stands outside parentheses has at
    least the rank of the outermost one. *)
Lemma ops_of_at_least e :
  grouped code_ordering e = true ->
  forall x n,
    In x (ops_of e) -> at_least n (level code_ordering e) = true ->
    (n <= precedence x)%N.
Proof.
  induction e as [s t | e IH | op l IHl r IHr | e IH | b e IH a];
    cbn [grouped ops_of level at_least]; intros G x n Hx Hn;
    try contradiction; [| |now apply IH].
  - apply andb_true_iff in G. destruct G as [G Ge].
    apply N.leb_le in Hn. destruct Hx as [<- | Hx]; [exact Hn|].
    specialize (IH G x _ Hx Ge). lia.
  - apply andb_true_iff in G. destruct G as [G Gop].
    apply andb_true_iff in G. destruct G as [Gl Gr].
    apply N.leb_le in Hn.
    assert (Hl : at_least (rank code_ordering op) (level code_ordering l) = true).
    { destruct (right_assoc op); apply andb_true_iff in Gop;
        destruct Gop as [A B]; [|exact A].
      destruct (level code_ordering l); [|reflexivity].
      simpl in *. apply N.ltb_lt in A. apply N.leb_le. lia. }
    assert (Hr : at_least (rank code_ordering op) (level code_ordering r) = true).
    { destruct (right_assoc op); apply andb_true_iff in Gop;
        destruct Gop as [A B]; [exact B|].
      destruct (level code_ordering r); [|reflexivity].
      simpl in *. apply N.ltb_lt in B. apply N.leb_le. lia. }
    apply in_app_or in Hx. destruct Hx as [Hx | [<- | Hx]].
    + specialize (IHl Gl x _ Hx Hl). lia.
    + exact Hn.
    + specialize (IHr Gr x _ Hx Hr). lia.
Qed.

Lemma level_none_no_ops o e : level o e = None -> ops_of e = [].
Proof.
  induction e as [s t | e IH | op l IHl r IHr | e IH | b e IH a];
    simpl; auto; discriminate.
Qed.

Lemma ops_of_above e :
  grouped code_ordering e = true ->
  forall x n,
    In x (ops_of e) -> above n (level code_ordering e) = true ->
    (n < precedence x)%N.
Proof.
  intros G x n Hx Hn.
  destruct (level code_ordering e) as [m|] eqn:E.
  - simpl in Hn. apply N.ltb_lt in Hn.
    assert (m <= precedence x)%N; [|lia].
    apply (ops_of_at_least e G x m Hx). rewrite E. simpl. apply N.leb_le. lia.
  - rewrite (level_none_no_ops _ _ E) in Hx. contradiction.
Qed.

Lemma pops_above o1 o2 :
  (precedence o2 < precedence o1)%N -> pops o1 o2 = false.
Proof.
  intros H. unfold pops.
  assert ((precedence o1 <=? precedence o2)%N = false) as -> by (apply N.leb_gt; lia).
  assert ((precedence o1 <? precedence o2)%N = false) as -> by (apply N.ltb_ge; lia).
  now rewrite !andb_false_r.
Qed.

Lemma pop_operators_stay o1 stack queue :
  match stack with [] => True | o2 :: _ => pops o1 o2 = false end ->
  pop_operators o1 stack queue = (stack, queue).
Proof. destruct stack as [|o2 stack]; simpl; [|intros ->]; reflexivity. Qed.

Lemma pop_operators_all o1 ops stack queue :
  Forall (fun x => pops o1 x = true) ops ->
  match stack with [] => True | o2 :: _ => pops o1 o2 = false end ->
  pop_operators o1 (ops ++ stack) queue = (stack, queue ++ ops).
Proof.
  intros H Hs. revert queue. induction H as [|x ops Hx H IH]; intros queue.
  - simpl. rewrite app_nil_r. now apply pop_operators_stay.
  - simpl. rewrite Hx, IH, <- app_assoc. reflexivity.
Qed.

Lemma drain_operators ops queue :
  Forall (fun o => tokenType_eqb (type o) lpa = false) ops ->
  drain ops queue = Postfix (queue ++ ops).
Proof.
  intros H. revert queue. induction H as [|x ops Hx H IH]; intros queue; simpl.
  - now rewrite app_nil_r.
  - rewrite Hx, IH, <- app_assoc. reflexivity.
Qed.

Lemma sy_loop_literal t tokens queue stack :
  type t = i32 \/ type t = f32 ->
  sy_loop (t :: tokens) queue stack = sy_loop tokens (queue ++ [t]) stack.
Proof. intros [E | E]; simpl; rewrite E; reflexivity. Qed.

Lemma sy_loop_neg tokens queue stack :
  sy_loop (tok_neg :: tokens) queue stack
  = let '(stack1, queue1) := pop_operators tok_neg stack queue in
    sy_loop tokens queue1 (tok_neg :: stack1).
Proof. reflexivity. Qed.

Lemma sy_loop_binop op tokens queue stack :
  sy_loop (op_token op :: tokens) queue stack
  = let '(stack1, queue1) := pop_operators (op_token op) stack queue in
    sy_loop tokens queue1 (op_token op :: stack1).
Proof. destruct op; reflexivity. Qed.

(** A literal, parenthesised or not, goes to the queue and leaves the stack
    as it was. *)
Lemma sy_atom e :
  atom e = true -> typed e ->
  forall rest queue stack,
    sy_loop (tokens_of e ++ rest) queue stack
    = sy_loop rest (queue ++ postfix e) stack.
Proof.
  induction e as [s t | e IH | op l IHl r IHr | e IH | b e IH a];
    cbn [atom typed tokens_of postfix]; intros A T rest queue stack;
    try discriminate; [| |now apply IH].
  - now apply sy_loop_literal.
  - change ((tok_lpa :: tokens_of e ++ [tok_rpa]) ++ rest)
      with (tok_lpa :: (tokens_of e ++ [tok_rpa]) ++ rest).
    rewrite <- app_assoc.
    change (sy_loop (tok_lpa :: tokens_of e ++ [tok_rpa] ++ rest) queue stack)
      with (sy_loop (tokens_of e ++ [tok_rpa] ++ rest) queue (tok_lpa :: stack)).
    rewrite IH by assumption. reflexivity.
Qed.

Lemma guarded_head e stack x :
  guarded e stack -> In x (ops_of e) ->
  match stack with [] => True | o2 :: _ => pops x o2 = false end.
Proof. destruct stack; simpl; auto. Qed.

Lemma guarded_incl e e' stack :
  incl (ops_of e') (ops_of e) -> guarded e stack -> guarded e' stack.
Proof. destruct stack; simpl; auto. Qed.

(** The operators of the right operand stay above the operator. *)
Lemma guarded_right op l r stack :
  grouped code_ordering (Bin op l r) = true ->
  guarded r (op_token op :: stack).
Proof.
  cbn [grouped]. intros G x Hx.
  apply andb_true_iff in G. destruct G as [G Gop].
  apply andb_true_iff in G. destruct G as [_ Gr].
  destruct (right_assoc op) eqn:R; apply andb_true_iff in Gop;
    destruct Gop as [A B].
  - pose proof (ops_of_at_least r Gr x _ Hx B) as P.
    destruct op; try discriminate.
    destruct (ops_of_shape r x Hx) as [-> | [op' ->]];
      [reflexivity | destruct op'; try reflexivity; cbn in P; lia].
  - apply pops_above. apply (ops_of_above r Gr x _ Hx B).
Qed.

(** The operator sends every pending operator of its left operand to the
    queue. *)
Lemma pops_left op l r :
  grouped code_ordering (Bin op l r) = true ->
  Forall (fun x => pops (op_token op) x = true) (ops_of l).
Proof.
  cbn [grouped]. intros G.
  apply andb_true_iff in G. destruct G as [G Gop].
  apply andb_true_iff in G. destruct G as [Gl _].
  apply Forall_forall. intros x Hx.
  destruct (right_assoc op) eqn:R; apply andb_true_iff in Gop;
    destruct Gop as [A B].
  - apply pops_right_assoc; [now destruct op|].
    apply (ops_of_above l Gl x _ Hx A).
  - apply pops_left_assoc; [now destruct op|].
    apply (ops_of_at_least l Gl x _ Hx A).
Qed.

(** The reorderer on the tokens of an expression: what has been decided
    goes to the queue, the operators still pending are put on the stack, and
    the two together are the postfix form of the expression. *)
Lemma sy_expr e :
  plain e = true -> typed e -> grouped code_ordering e = true ->
  forall rest queue stack,
    guarded e stack ->
    exists out ops,
      sy_loop (tokens_of e ++ rest) queue stack
      = sy_loop rest (queue ++ out) (ops ++ stack)
      /\ out ++ ops = postfix e
      /\ incl ops (ops_of e).
Proof.
  induction e as [s t | e IH | op l IHl r IHr | e IH | b e IH a];
    intros P T G rest queue stack Hg; [| | | |now apply IH].
  - exists [t], []. split; [|split; [reflexivity | apply incl_refl]].
    now apply sy_loop_literal.
  - cbn [plain typed] in P, T. exists (postfix e), [tok_neg].
    split; [|split; [reflexivity | cbn; intros x [<- | []]; now left]].
    cbn [tokens_of]. change ((tok_neg :: tokens_of e) ++ rest)
      with (tok_neg :: tokens_of e ++ rest).
    rewrite sy_loop_neg, pop_operators_stay
      by (apply (guarded_head _ _ _ Hg); now left).
    now apply sy_atom.
  - assert (Pl : plain l = true /\ plain r = true)
      by (cbn [plain] in P; destruct op; try discriminate;
          now apply andb_true_iff in P).
    destruct Pl as [Pl Pr]. destruct T as [Tl Tr].
    pose proof G as G'. cbn [grouped] in G'.
    apply andb_true_iff in G'. destruct G' as [G' _].
    apply andb_true_iff in G'. destruct G' as [Gl Gr].
    assert (Hgl : guarded l stack).
    { apply (guarded_incl (Bin op l r)); [|exact Hg].
      cbn. intros x Hx. apply in_or_app. now left. }
    destruct (IHl Pl Tl Gl (op_token op :: tokens_of r ++ rest) queue stack Hgl)
      as (outl & opsl & El & Epl & Il).
    destruct (IHr Pr Tr Gr rest (queue ++ postfix l) (op_token op :: stack)
                  (guarded_right _ _ _ _ G))
      as (outr & opsr & Er & Epr & Ir).
    exists (postfix l ++ outr), (opsr ++ [op_token op]).
    split; [|split].
    + cbn [tokens_of]. rewrite <- app_assoc.
      change ((op_token op :: tokens_of r) ++ rest)
        with (op_token op :: tokens_of r ++ rest).
      rewrite El, sy_loop_binop.
      rewrite (pop_operators_all (op_token op) opsl stack).
      * rewrite <- app_assoc, Epl, Er, <- !app_assoc. reflexivity.
      * assert (F := pops_left op l r G).
        rewrite Forall_forall in F. apply Forall_forall. auto.
      * apply (guarded_head _ _ _ Hg). cbn. apply in_or_app. right. now left.
    + cbn [postfix]. rewrite <- app_assoc, (app_assoc outr), Epr. reflexivity.
    + cbn [ops_of]. intros x Hx. apply in_app_or in Hx. apply in_or_app.
      destruct Hx as [Hx | [<- | []]]; right; [right; auto | now left].
  - cbn [plain typed] in P, T. exists (postfix (Paren e)), [].
    split; [|split; [apply app_nil_r | apply incl_nil_l]].
    now apply (sy_atom (Paren e)).
Qed.

(** On the tokens of such an expression the reorderer returns its postfix
    form, and reports nothing. *)
Lemma shuntingYard_expr e :
  plain e = true -> typed e -> grouped code_ordering e = true ->
  shuntingYard (tokens_of e) = Postfix (postfix e).
Proof.
  intros P T G.
  destruct (sy_expr e P T G [] [] [] I) as (out & ops & E & Ep & Ii).
  unfold shuntingYard. rewrite <- (app_nil_r (tokens_of e)), E.
  simpl. rewrite app_nil_r, drain_operators, Ep; [reflexivity|].
  pose proof (ops_of_not_lpa e) as F. rewrite Forall_forall in *. auto.
Qed.

(** ** Evaluator: the postfix form of an expression *)

Section Pipeline.

Variable pow : float -> float -> float.
Variable stof : string -> option float.

Lemma atom_plain e : atom e = true -> plain e = true.
Proof.
  induction e as [s t | e IH | op l IHl r IHr | e IH | b e IH a];
    simpl; try discriminate; auto.
Qed.

Lemma compute_step_binop op rhs lhs stack :
  op <> Mod ->
  compute_step pow (op_token op) (rhs :: lhs :: stack)
  = Some (apply_binop pow op lhs rhs :: stack).
Proof. destruct op; try reflexivity. congruence. Qed.

Lemma compute_postfix e :
  plain e = true -> typed e ->
  forall rest stack,
    compute_loop pow (postfix e ++ rest) stack
    = compute_loop pow rest (denote pow e :: stack).
Proof.
  induction e as [s t | e IH | op l IHl r IHr | e IH | b e IH a];
    cbn [plain typed postfix denote]; intros P T rest stack;
    [| | | |now apply IH].
  - unfold literal_value. simpl. unfold compute_step.
    destruct T as [-> | ->]; reflexivity.
  - rewrite <- app_assoc, IH by auto using atom_plain. reflexivity.
  - assert (N : op <> Mod) by (intros ->; discriminate).
    assert (Pl : plain l = true /\ plain r = true)
      by (destruct op; try discriminate; now apply andb_true_iff in P).
    destruct Pl as [Pl Pr]. destruct T as [Tl Tr].
    rewrite <- !app_assoc, IHl, IHr by assumption.
    simpl. rewrite (compute_step_binop _ _ _ _ N). reflexivity.
  - apply IH; auto using atom_plain.
Qed.

Lemma compute_expr e :
  plain e = true -> typed e -> compute pow (postfix e) = Some (denote pow e).
Proof.
  intros P T. unfold compute.
  rewrite <- (app_nil_r (postfix e)), (compute_postfix e P T). reflexivity.
Qed.

(** C1, as the code has it.  For every expression of literals, the binary
    operators [+ - * / ^] and unary minus, in which parentheses enclose a
    literal only and unary minus stands before such an operand only, with
    whitespace anywhere around its tokens, whose text the lexer accepts:
    the text evaluates to the value obtained by evaluating the expression
    directly under the ordering unary minus > power > multiply, divide >
    add, subtract, the power operator grouping to the right and the other
    binary operators to the left. *)
Theorem evaluate_agrees_with_direct (e : expr) :
  spelled stof e -> accepted stof (render e) ->
  plain e = true -> grouped code_ordering e = true ->
  lex stof (render e) = Lexed (tokens_of e)
  /\ shuntingYard (tokens_of e) = Postfix (postfix e)
  /\ evaluate pow stof (render e) = Prints (denote pow e).
Proof.
  intros S A P G. pose proof (spelled_typed stof e S) as T.
  apply (accepted_iff_not_trailing stof e S) in A.
  pose proof (lex_render_expr stof e S A) as L.
  pose proof (shuntingYard_expr e P T G) as Y.
  split; [exact L | split; [exact Y|]].
  unfold evaluate. rewrite L, Y. simpl.
  rewrite (compute_expr e P T). reflexivity.
Qed.

End Pipeline.

Lemma evaluate_agrees_with_direct_witness :
  (spelled Ref.stof sample /\ accepted Ref.stof (render sample)
   /\ plain sample = true /\ grouped code_ordering sample = true)
  /\ render sample = " 1 + 2*3^2 - (4)/-2"
  /\ evaluate Ref.pow Ref.stof " 1 + 2*3^2 - (4)/-2" = Prints (F32.of_Z 21).
Proof.
  assert (S : spelled Ref.stof sample) by (cbn; repeat split; reflexivity).
  assert (A : accepted Ref.stof (render sample)) by (eexists; reflexivity).
  split; [split; [exact S | split; [exact A | split; reflexivity]]|].
  split; [reflexivity|].
  apply (evaluate_agrees_with_direct Ref.pow Ref.stof sample S A);
    reflexivity.
Defined.

(** C1, as the specification states it, fails.  ["-3^2"], read with power
    above unary minus, is [-(3^2)] and has the value -9; the program
    changes the sign first and prints 9.  ["2*(3+4)"] has the value 14; the
    program prints 10.  ["7%3"] has the value 1 and ["--3"] the value 3; on
    both the program has no defined result. *)
Lemma direct_evaluation_counterexample :
  (spelled Ref.stof neg_of_power
   /\ grouped spec_ordering neg_of_power = true
   /\ render neg_of_power = "-3^2"
   /\ denote Ref.pow neg_of_power = F32.of_Z (-9)
   /\ evaluate Ref.pow Ref.stof "-3^2" = Prints (F32.of_Z 9)
   /\ ~ agrees_with_direct Ref.pow Ref.stof spec_ordering neg_of_power)
  /\ (spelled Ref.stof product_of_sum
      /\ grouped spec_ordering product_of_sum = true
      /\ render product_of_sum = "2*(3+4)"
      /\ denote Ref.pow product_of_sum = F32.of_Z 14
      /\ evaluate Ref.pow Ref.stof "2*(3+4)" = Prints (F32.of_Z 10)
      /\ ~ agrees_with_direct Ref.pow Ref.stof spec_ordering product_of_sum)
  /\ (spelled Ref.stof remainder
      /\ grouped spec_ordering remainder = true
      /\ render remainder = "7%3"
      /\ denote Ref.pow remainder = F32.of_Z 1
      /\ evaluate Ref.pow Ref.stof "7%3" = Undefined
      /\ ~ agrees_with_direct Ref.pow Ref.stof spec_ordering remainder)
  /\ (spelled Ref.stof double_negation
      /\ grouped spec_ordering double_negation = true
      /\ render double_negation = "--3"
      /\ denote Ref.pow double_negation = F32.of_Z 3
      /\ evaluate Ref.pow Ref.stof "--3" = Undefined
      /\ ~ agrees_with_direct Ref.pow Ref.stof spec_ordering double_negation).
Proof.
  assert (S1 : spelled Ref.stof neg_of_power) by (cbn; repeat split; reflexivity).
  assert (S2 : spelled Ref.stof product_of_sum) by (cbn; repeat split; reflexivity).
  assert (S3 : spelled Ref.stof remainder) by (cbn; repeat split; reflexivity).
  assert (S4 : spelled Ref.stof double_negation) by (cbn; repeat split; reflexivity).
  repeat split; try assumption; try reflexivity;
    intros H;
    specialize (H ltac:(assumption) eq_refl (ex_intro _ _ eq_refl));
    vm_compute in H; discriminate H.
Qed.

(** ** Lexer: the accepted texts *)

Section LexerSpec.

Variable stof : string -> option float.

Lemma str_length_app (a b : string) :
  String.length (a ++ b) = String.length a + String.length b.
Proof. induction a as [|c a IH]; simpl; [reflexivity | now rewrite IH]. Qed.

(** Every text begins with the characters a scan takes. *)
Lemma split_literal_prefix s :
  exists pre s',
    s = (pre ++ s')%string /\ all_chars literal_char pre = true /\ stops s'.
Proof.
  induction s as [|c s (pre & s' & -> & Hpre & Hs')].
  - exists "", "". repeat split.
  - destruct (literal_char c) eqn:Hc.
    + exists (String c pre), s'. simpl. rewrite Hc. auto.
    + exists "", (String c (pre ++ s')). simpl. auto.
Qed.

Lemma finish_literal_token formatTokens ty floatStr k r :
  finish_literal stof formatTokens ty floatStr k = Lexed r ->
  exists t,
    finish_literal stof [] ty floatStr Lexed = Lexed [t]
    /\ k (formatTokens ++ [t]) = Lexed r.
Proof.
  unfold finish_literal. destruct (tokenType_eqb ty f32).
  - destruct (stof floatStr); [|discriminate].
    intros H. eexists. split; [reflexivity | exact H].
  - destruct (stoi floatStr); [|discriminate].
    intros H. eexists. split; [reflexivity | exact H].
Qed.

Lemma lex_literal_alone txt ty floatStr t :
  literal_text txt = true ->
  literal_scan txt = Some (ty, floatStr) ->
  finish_literal stof [] ty floatStr Lexed = Lexed [t] ->
  lex stof txt = Lexed [t].
Proof.
  intros Ht Hs Hf.
  rewrite (lex_nonempty _ _ (literal_text_nonempty _ Ht)).
  rewrite <- (str_app_nil_r txt), (lex_literal stof txt "" [] Ht I), Hs.
  exact Hf.
Qed.

Lemma lexeme_nonempty formatTokens txt t :
  lexeme stof formatTokens txt t -> txt <> EmptyString.
Proof.
  intros [(c & -> & _) | [[-> _] | [H _]]]; try discriminate.
  now apply literal_text_nonempty.
Qed.

Lemma lexemes_space c formatTokens rest ts :
  is_space c = true -> rest <> EmptyString ->
  lexemes stof formatTokens rest ts ->
  lexemes stof formatTokens (String c rest) ts.
Proof.
  intros Hc N H. destruct H as [|toks ws txt t rest ts Hws Hl Hs H];
    [congruence|].
  apply (lexemes_token stof toks (String c ws)); auto.
  simpl. now rewrite Hc.
Qed.

Lemma lexemes_single formatTokens c t rest ts :
  lexeme stof formatTokens (String c "") t ->
  literal_text (String c "") = false ->
  lexemes stof (formatTokens ++ [t]) rest ts ->
  lexemes stof formatTokens (String c rest) (t :: ts).
Proof.
  intros Hl Hn H.
  apply (lexemes_token stof formatTokens "" (String c "") t rest ts);
    auto; congruence.
Qed.

Ltac punct_case IH rest toks r c t :=
  let H := fresh "H" in
  let ts := fresh "ts" in
  let E := fresh "E" in
  let L := fresh "L" in
  intros H;
  change (lex_for stof rest (toks ++ [t]) = Lexed r) in H;
  destruct (IH rest (toks ++ [t]) r ltac:(simpl in *; lia) H) as (ts & E & L);
  exists (t :: ts); split;
  [rewrite E, <- app_assoc; reflexivity
  | apply lexemes_single;
    [left; exists c; split; [reflexivity | simpl; tauto]
    | reflexivity | exact L]].

(** What the lexer accepts is a sequence of lexemes, and its tokens are
    theirs in order, after the ones the buffer held. *)
Lemma lex_for_sound n :
  forall s formatTokens r,
    (String.length s <= n)%nat ->
    lex_for stof s formatTokens = Lexed r ->
    exists ts, r = formatTokens ++ ts /\ lexemes stof formatTokens s ts.
Proof.
  induction n as [|n IH]; intros s toks r Hn H.
  - destruct s; [|simpl in Hn; lia]. injection H as <-.
    exists []. split; [now rewrite app_nil_r | constructor].
  - destruct s as [|c rest].
    { injection H as <-. exists []. split; [now rewrite app_nil_r | constructor]. }
    change (lex_again stof (String c rest) toks = Lexed r) in H.
    simpl in Hn. revert H. rewrite lex_again_eq.
    destruct (is_space c) eqn:Hsp.
    { intros H. destruct rest as [|d rest]; [discriminate|].
      destruct (IH (String d rest) toks r ltac:(lia) H) as (ts & E & L).
      exists ts. split; [exact E|].
      apply lexemes_space; [assumption | discriminate | exact L]. }
    destruct (Ascii.eqb_spec c "(");
      [subst c; punct_case IH rest toks r "("%char tok_lpa|].
    destruct (Ascii.eqb_spec c ")");
      [subst c; punct_case IH rest toks r ")"%char tok_rpa|].
    destruct (Ascii.eqb_spec c "+");
      [subst c; punct_case IH rest toks r "+"%char tok_add|].
    destruct (Ascii.eqb_spec c "-").
    { subst c. intros H.
      assert (M : exists t,
                 t = (if minus_is_unary toks then tok_neg else tok_sub)
                 /\ lex_for stof rest (toks ++ [t]) = Lexed r)
        by (destruct (minus_is_unary toks); eauto).
      destruct M as (t & Et & H').
      destruct (IH rest (toks ++ [t]) r ltac:(lia) H') as (ts & E & L).
      exists (t :: ts). split; [rewrite E, <- app_assoc; reflexivity|].
      apply lexemes_single; [right; left; auto | reflexivity | exact L]. }
    destruct (Ascii.eqb_spec c "/");
      [subst c; punct_case IH rest toks r "/"%char tok_div|].
    destruct (Ascii.eqb_spec c "*");
      [subst c; punct_case IH rest toks r "*"%char tok_mul|].
    destruct (Ascii.eqb_spec c "x");
      [subst c; punct_case IH rest toks r "x"%char tok_mul|].
    destruct (Ascii.eqb_spec c "%");
      [subst c; punct_case IH rest toks r "%"%char tok_mod|].
    destruct (Ascii.eqb_spec c "^");
      [subst c; punct_case IH rest toks r "^"%char tok_exp|].
    cbv beta iota delta [orb].
    destruct (isdigit c) eqn:Hd.
    { intros H.
      destruct (split_literal_prefix rest) as (pre & s' & -> & Hpre & Hs').
      rewrite (scan_number_app _ _ _ _ _ Hpre Hs') in H.
      destruct (scan_text pre i32 (String c "")) as [[ty fs]|] eqn:Hscan;
        [|discriminate].
      apply finish_literal_token in H. destruct H as (t & Hf & H).
      rewrite str_length_app in Hn.
      destruct (IH s' (toks ++ [t]) r ltac:(lia) H) as (ts & E & L).
      exists (t :: ts). split; [rewrite E, <- app_assoc; reflexivity|].
      assert (Ht : literal_text (String c pre) = true)
        by (simpl; now rewrite Hd).
      apply (lexemes_token stof toks "" (String c pre) t s' ts); auto.
      right; right. split; [exact Ht|].
      apply (lex_literal_alone _ ty fs); auto.
      unfold literal_scan. now rewrite Hd. }
    destruct (Ascii.eqb_spec c "."); [subst c | discriminate].
    destruct rest as [|d rest]; [discriminate|].
    destruct (isdigit d) eqn:Hdd; [|discriminate].
    intros H.
    destruct (split_literal_prefix rest) as (pre & s' & -> & Hpre & Hs').
    assert (Hpre' : all_chars literal_char (String d pre) = true).
    { simpl. unfold literal_char at 1. now rewrite Hdd, Hpre. }
    change (String d (pre ++ s')) with (String d pre ++ s')%string in H.
    rewrite (scan_number_app _ _ _ _ _ Hpre' Hs') in H.
    destruct (scan_text (String d pre) f32 ".") as [[ty fs]|] eqn:Hscan;
      [|discriminate].
    apply finish_literal_token in H. destruct H as (t & Hf & H).
    simpl in Hn. rewrite str_length_app in Hn.
    destruct (IH s' (toks ++ [t]) r ltac:(lia) H) as (ts & E & L).
    exists (t :: ts). split; [rewrite E, <- app_assoc; reflexivity|].
    assert (Ht : literal_text (String "." (String d pre)) = true).
    { cbn [literal_text]. change (isdigit ".") with false. cbv iota.
      change (Ascii.eqb "." ".") with true. cbv iota.
      now rewrite Hdd, Hpre'. }
    apply (lexemes_token stof toks "" (String "." (String d pre)) t s' ts); auto.
    right; right. split; [exact Ht|].
    apply (lex_literal_alone _ ty fs); auto.
Qed.

(** A sequence of lexemes is accepted. *)
Lemma lexemes_complete formatTokens s ts :
  lexemes stof formatTokens s ts ->
  lex_for stof s formatTokens = Lexed (formatTokens ++ ts).
Proof.
  induction 1 as [toks | toks ws txt t rest ts Hws Hl Hs H IH].
  - simpl. now rewrite app_nil_r.
  - assert (N : (ws ++ txt ++ rest)%string <> EmptyString).
    { pose proof (lexeme_nonempty _ _ _ Hl).
      destruct ws; [destruct txt; [congruence | discriminate] | discriminate]. }
    assert (E : lex_for stof (ws ++ txt ++ rest) toks
                = lex_again stof (ws ++ txt ++ rest) toks)
      by (destruct (ws ++ txt ++ rest)%string; [congruence | reflexivity]).
    rewrite E, (lex_skip_spaces stof _ _ _ Hws).
    replace (toks ++ t :: ts) with ((toks ++ [t]) ++ ts)
      by (now rewrite <- app_assoc).
    rewrite <- IH.
    destruct Hl as [(c & -> & Hc) | [[-> ->] | [Ht Hlex]]].
    + simpl in Hc.
      repeat (destruct Hc as [[= <- <-] | Hc]; [reflexivity|]). contradiction.
    + change ("-" ++ rest)%string with (String "-" rest).
      destruct (minus_is_unary toks) eqn:M.
      * now apply lex_unary_minus.
      * now apply lex_binary_minus.
    + apply lex_spelled_literal; auto.
Qed.

Lemma lex_lexemes text ts :
  lex stof text = Lexed ts -> lexemes stof [] text ts.
Proof.
  intros H.
  destruct (lex_for_sound _ text [] ts (le_n _) H) as (ts' & -> & L).
  exact L.
Qed.

End LexerSpec.

(** X1. The lexer accepts a text exactly when the text is a sequence of
    lexemes (a character of punctuation, a [-], a numeric literal), each
    after any whitespace and none after the last, in which no literal is
    followed at once by a digit, an underscore or a point; the tokens are
    those of the lexemes, in order. *)
Theorem lex_accepts_lexemes (stof : string -> option float)
        (text : string) (ts : list token) :
  lex stof text = Lexed ts <-> lexemes stof [] text ts.
Proof.
  split.
  - apply lex_lexemes.
  - intros H. apply (lexemes_complete stof [] text ts H).
Qed.

(** ** Lexer: what the tokens are *)

Section LexerTokens.

Variable stof : string -> option float.

Lemma isdigit_val c : isdigit c = true -> (0 <= digit_val c <= 9)%Z.
Proof.
  intros H. apply isdigit_cases in H. simpl in H.
  repeat (destruct H as [<- | H]; [vm_compute; split; discriminate|]).
  contradiction.
Qed.

Lemma stoi_digits_nonneg s acc : (0 <= acc -> 0 <= stoi_digits s acc)%Z.
Proof.
  revert acc. induction s as [|c s IH]; intros acc H; cbn [stoi_digits];
    [exact H|].
  destruct (isdigit c) eqn:Hc; [|exact H].
  apply IH. pose proof (isdigit_val c Hc). lia.
Qed.

Lemma stoi_bounds s n : stoi s = Some n -> (0 <= n <= INT_MAX)%Z.
Proof.
  unfold stoi. destruct s as [|c s]; [discriminate|].
  destruct (isdigit c); [|discriminate].
  destruct (stoi_digits (String c s) 0 <=? INT_MAX)%Z eqn:E; [|discriminate].
  intros [= <-].
  split; [exact (stoi_digits_nonneg (String c s) 0 (Z.le_refl 0))
         | now apply Z.leb_le].
Qed.

Lemma literal_token_shape txt t :
  literal_text txt = true -> lex stof txt = Lexed [t] ->
  (exists n, t = tok_i32 n /\ (0 <= n <= INT_MAX)%Z) \/ (exists x, t = tok_f32 x).
Proof.
  intros Ht H.
  destruct (lex_single_literal stof _ _ Ht H) as (ty & fs & Hscan & Hfin).
  destruct (literal_scan_spec _ _ _ Ht Hscan) as [_ ->].
  unfold finish_literal in Hfin. destruct (has_dot txt); simpl in Hfin.
  - right. destruct (stof fs) as [x|]; [|discriminate].
    injection Hfin as <-. exists x. reflexivity.
  - left. destruct (stoi fs) as [n|] eqn:E; [|discriminate].
    injection Hfin as <-. exists n. split; [reflexivity|].
    now apply (stoi_bounds fs).
Qed.

Lemma lexeme_token formatTokens txt t :
  lexeme stof formatTokens txt t -> lexer_token t.
Proof.
  intros [(c & -> & Hc) | [[-> ->] | [Ht Hlex]]].
  - left. simpl in Hc.
    repeat (destruct Hc as [[= <- <-] | Hc]; [simpl; tauto|]). contradiction.
  - left. destruct (minus_is_unary formatTokens); simpl; tauto.
  - right. now apply (literal_token_shape txt).
Qed.

Lemma lexemes_tokens formatTokens s ts :
  lexemes stof formatTokens s ts -> Forall lexer_token ts.
Proof.
  induction 1 as [toks | toks ws txt t rest ts Hws Hl Hs H IH]; constructor.
  - now apply (lexeme_token toks txt).
  - exact IH.
Qed.

Lemma all_chars_app p a b :
  all_chars p (a ++ b) = all_chars p a && all_chars p b.
Proof.
  induction a as [|c a IH]; simpl; [reflexivity|].
  now rewrite IH, andb_assoc.
Qed.

Lemma all_chars_weaken (p q : ascii -> bool) s :
  (forall c, p c = true -> q c = true) ->
  all_chars p s = true -> all_chars q s = true.
Proof.
  intros W. induction s as [|c s IH]; simpl; [reflexivity|].
  intros H. apply andb_true_iff in H. destruct H as [Hc Hs].
  now rewrite (W c Hc), IH.
Qed.

Lemma literal_text_chars txt :
  literal_text txt = true -> all_chars literal_char txt = true.
Proof.
  destruct txt as [|c s]; [discriminate|].
  cbn [literal_text]. destruct (isdigit c) eqn:Hd.
  - intros H. cbn [all_chars]. unfold literal_char at 1.
    rewrite Hd. exact H.
  - destruct (Ascii.eqb c ".") eqn:Hdot; [|discriminate].
    destruct s as [|d s]; [discriminate|].
    intros H. apply andb_true_iff in H. destruct H as [_ H].
    change (literal_char c && all_chars literal_char (String d s) = true).
    unfold literal_char at 1. rewrite Hdot, orb_true_r. exact H.
Qed.

Lemma lexeme_chars formatTokens txt t :
  lexeme stof formatTokens txt t -> all_chars lexer_char txt = true.
Proof.
  intros [(c & -> & Hc) | [[-> ->] | [Ht Hlex]]].
  - simpl in Hc.
    repeat (destruct Hc as [[= <- <-] | Hc]; [reflexivity|]). contradiction.
  - reflexivity.
  - apply (all_chars_weaken literal_char); [|now apply literal_text_chars].
    intros c Hc. unfold lexer_char. now rewrite Hc, orb_true_r.
Qed.

Lemma lexemes_chars formatTokens s ts :
  lexemes stof formatTokens s ts -> all_chars lexer_char s = true.
Proof.
  induction 1 as [toks | toks ws txt t rest ts Hws Hl Hs H IH];
    [reflexivity|].
  rewrite !all_chars_app, IH, (lexeme_chars _ _ _ Hl), !andb_true_r.
  apply (all_chars_weaken is_space); [|exact Hws].
  intros c Hc. unfold lexer_char. now rewrite Hc.
Qed.

Lemma lexeme_unary formatTokens txt t :
  lexeme stof formatTokens txt t ->
  unary t = tokenType_eqb (type t) sub && minus_is_unary formatTokens.
Proof.
  intros [(c & -> & Hc) | [[-> ->] | [Ht Hlex]]].
  - simpl in Hc.
    repeat (destruct Hc as [[= <- <-] | Hc]; [reflexivity|]). contradiction.
  - destruct (minus_is_unary formatTokens); reflexivity.
  - destruct (literal_token_shape _ _ Ht Hlex) as [(n & -> & _) | (x & ->)];
      reflexivity.
Qed.

Lemma lexemes_unary formatTokens s ts :
  lexemes stof formatTokens s ts ->
  forall front t back,
    ts = front ++ t :: back ->
    unary t
    = tokenType_eqb (type t) sub && minus_is_unary (formatTokens ++ front).
Proof.
  induction 1 as [toks | toks ws txt t0 rest ts Hws Hl Hs H IH];
    intros front t back E.
  - destruct front; discriminate.
  - destruct front as [|t1 front]; injection E as <- E.
    + rewrite app_nil_r. now apply (lexeme_unary toks txt).
    + rewrite (IH front t back E), <- app_assoc. reflexivity.
Qed.

Lemma sy_loop_token_error tokens queue stack t :
  sy_loop tokens queue stack = TokenError t -> In t tokens /\ type t = nil_t.
Proof.
  revert queue stack. induction tokens as [|t0 tokens IH]; intros queue stack.
  - simpl. induction stack as [|o stack IHs] in queue |- *; simpl;
      [discriminate|].
    destruct (tokenType_eqb (type o) lpa); [discriminate | apply IHs].
  - simpl. destruct (type t0) eqn:E;
      try (destruct (pop_operators t0 stack queue) as [? ?]);
      try (intros H; apply IH in H; tauto).
    + intros [= <-]. auto.
    + destruct (pop_to_lpa stack queue false) as [[stack1 queue1] m].
      destruct (negb m && match stack1 with [] => true | _ :: _ => false end);
        [discriminate|].
      intros H; apply IH in H; tauto.
Qed.

End LexerTokens.

(** X2. Every token the lexer gives is one of the nine operator and
    parenthesis tokens of its [switch], whose precedence and associativity
    are fixed by the kind and the unary flag, an integer token whose value
    fits an [int] and is not negative, or a float token. *)
Theorem lex_gives_lexer_tokens (stof : string -> option float) (text : string) :
  match lex stof text with
  | Lexed ts => Forall lexer_token ts
  | Fatal _ => True
  end.
Proof.
  destruct (lex stof text) as [ts|e] eqn:E; [|exact I].
  apply lex_lexemes in E. now apply (lexemes_tokens stof [] text).
Qed.

(** X3. The lexer never gives a token of kind [nil], so that on what the
    lexer gives [shuntingYard] never takes its [default] branch. *)
Theorem reorder_never_token_error (stof : string -> option float)
        (text : string) (t : token) :
  reorder stof text <> Some (TokenError t).
Proof.
  unfold reorder. destruct (lex stof text) as [ts|e] eqn:E; [|discriminate].
  intros [= H]. apply sy_loop_token_error in H. destruct H as [Hin Hty].
  pose proof (lexemes_tokens stof [] text ts (lex_lexemes stof _ _ E)) as F.
  rewrite Forall_forall in F. specialize (F t Hin).
  destruct F as [F | [(n & -> & _) | (x & ->)]]; [|discriminate..].
  simpl in F. decompose [or] F; subst; try discriminate; contradiction.
Qed.

(** X5. A text with a character that is neither whitespace, nor one of
    [( ) + - / * x % ^], nor a digit, a point or an underscore is not
    accepted: the lexer ends the process. *)
Theorem foreign_character_is_fatal (stof : string -> option float)
        (text : string) :
  all_chars lexer_char text = false -> exists e, lex stof text = Fatal e.
Proof.
  intros H. destruct (lex stof text) as [ts|e] eqn:E; [|eauto].
  apply lex_lexemes, lexemes_chars in E. congruence.
Qed.

Lemma foreign_character_is_fatal_witness :
  all_chars lexer_char "2a" = false
  /\ exists e, lex Ref.stof "2a" = Fatal e.
Proof.
  split; [reflexivity|].
  apply (foreign_character_is_fatal Ref.stof "2a"). reflexivity.
Defined.

(** X6. In what the lexer gives, a token is unary exactly when it is a
    subtraction token that stands first or follows an operator or a left
    parenthesis. *)
Theorem lex_unary_by_context (stof : string -> option float) (text : string) :
  match lex stof text with
  | Lexed ts =>
      forall front t back,
        ts = front ++ t :: back ->
        unary t = tokenType_eqb (type t) sub && minus_is_unary front
  | Fatal _ => True
  end.
Proof.
  destruct (lex stof text) as [ts|e] eqn:E; [|exact I].
  apply lex_lexemes in E. intros front t back Ets.
  apply (lexemes_unary stof [] text ts E front t back Ets).
Qed.

(** ** Lexer: the letter x *)

Section LexerStar.

Variable stof : string -> option float.

Lemma star_for_x_app a b :
  star_for_x (a ++ b) = (star_for_x a ++ star_for_x b)%string.
Proof. induction a as [|c a IH]; simpl; [reflexivity | now rewrite IH]. Qed.

Lemma literal_char_not_x c : literal_char c = true -> Ascii.eqb c "x" = false.
Proof.
  intros H. destruct (Ascii.eqb_spec c "x"); [subst c; discriminate H | reflexivity].
Qed.

Lemma star_for_x_literal s :
  all_chars literal_char s = true -> star_for_x s = s.
Proof.
  induction s as [|c s IH]; simpl; [reflexivity|].
  intros H. apply andb_true_iff in H. destruct H as [Hc Hs].
  now rewrite (literal_char_not_x c Hc), IH.
Qed.

Lemma star_for_x_length s : String.length (star_for_x s) = String.length s.
Proof. induction s as [|c s IH]; simpl; [reflexivity | now rewrite IH]. Qed.

Lemma stops_star_for_x s : stops s -> stops (star_for_x s).
Proof.
  destruct s as [|c s]; simpl; [auto|].
  destruct (Ascii.eqb c "x"); [reflexivity | auto].
Qed.

Lemma lex_star_for_x n :
  forall s formatTokens,
    (String.length s <= n)%nat ->
    lex_again stof (star_for_x s) formatTokens = lex_again stof s formatTokens.
Proof.
  induction n as [|n IH]; intros s toks Hn.
  - destruct s; [reflexivity | simpl in Hn; lia].
  - destruct s as [|c rest]; [reflexivity|]. simpl in Hn.
    assert (A2 : forall s' toks',
               (String.length s' <= n)%nat ->
               lex_for stof (star_for_x s') toks' = lex_for stof s' toks').
    { intros s' toks' L. destruct s' as [|d s']; [reflexivity|].
      apply (IH (String d s') toks' L). }
    assert (A3 : forall toks' ty0 fs0,
               scan_number
                 (fun s' ty floatStr =>
                    finish_literal stof toks' ty floatStr (lex_for stof s'))
                 (star_for_x rest) ty0 fs0
               = scan_number
                   (fun s' ty floatStr =>
                      finish_literal stof toks' ty floatStr (lex_for stof s'))
                   rest ty0 fs0).
    { intros toks' ty0 fs0.
      destruct (split_literal_prefix rest) as (pre & s' & E & Hpre & Hs').
      assert (L : (String.length s' <= n)%nat)
        by (rewrite E, str_length_app in Hn; lia).
      rewrite E, star_for_x_app, (star_for_x_literal _ Hpre).
      rewrite (scan_number_app _ _ _ _ _ Hpre (stops_star_for_x _ Hs')).
      rewrite (scan_number_app _ _ _ _ _ Hpre Hs').
      destruct (scan_text pre ty0 fs0) as [[ty fs]|]; [|reflexivity].
      unfold finish_literal.
      destruct (tokenType_eqb ty f32);
        [destruct (stof fs) | destruct (stoi fs)];
        try reflexivity; now apply A2. }
    cbn [star_for_x]. destruct (Ascii.eqb_spec c "x").
    + subst c.
      change (lex_for stof (star_for_x rest) (toks ++ [tok_mul])
              = lex_for stof rest (toks ++ [tok_mul])).
      apply A2. lia.
    + rewrite !lex_again_eq.
      rewrite (IH rest toks ltac:(lia)), !(A2 rest) by lia.
      rewrite A3.
      assert (A4 : match star_for_x rest with
                   | String d _ =>
                       if isdigit d
                       then scan_number
                              (fun s' ty floatStr =>
                                 finish_literal stof toks ty floatStr
                                   (lex_for stof s'))
                              (star_for_x rest) f32 "."
                       else Fatal UnexpectedDot
                   | EmptyString => Fatal UnexpectedDot
                   end
                   = match rest with
                     | String d _ =>
                         if isdigit d
                         then scan_number
                                (fun s' ty floatStr =>
                                   finish_literal stof toks ty floatStr
                                     (lex_for stof s'))
                                rest f32 "."
                         else Fatal UnexpectedDot
                     | EmptyString => Fatal UnexpectedDot
                     end).
      { rewrite A3. destruct rest as [|d r]; [reflexivity|].
        cbn [star_for_x]. destruct (Ascii.eqb_spec d "x"); [subst d|];
          reflexivity. }
      rewrite A4. reflexivity.
Qed.

End LexerStar.

(** X4. The letter [x] is a multiplication sign: writing [*] for every [x]
    of a text changes nothing in what the lexer does, nor in the value that
    is printed. *)
Theorem x_is_multiplication (pow : float -> float -> float)
        (stof : string -> option float) (text : string) :
  lex stof (star_for_x text) = lex stof text
  /\ evaluate pow stof (star_for_x text) = evaluate pow stof text.
Proof.
  assert (E : lex stof (star_for_x text) = lex stof text).
  { unfold lex. destruct text as [|c s]; [reflexivity|].
    apply (lex_star_for_x stof _ (String c s) [] (le_n _)). }
  split; [exact E|]. unfold evaluate. now rewrite E.
Qed.

(** ** Lexer: one literal *)

Section LiteralFacts.

Variable stof : string -> option float.

(** What the lexer does with a text that is one literal. *)
Lemma lex_literal_result s :
  literal_text s = true ->
  lex stof s
  = match literal_scan s with
    | Some (ty, floatStr) => finish_literal stof [] ty floatStr Lexed
    | None => Fatal RedefinitionOfFloat
    end.
Proof.
  intros Hs. rewrite (lex_nonempty _ _ (literal_text_nonempty _ Hs)).
  rewrite <- (str_app_nil_r s) at 1.
  rewrite (lex_literal stof s "" [] Hs I).
  destruct (literal_scan s) as [[ty fs]|]; reflexivity.
Qed.

Lemma scan_text_strip s ty floatStr :
  scan_text (strip_underscores s) ty floatStr = scan_text s ty floatStr.
Proof.
  revert ty floatStr. induction s as [|c s IH]; intros ty floatStr;
    [reflexivity|].
  cbn [strip_underscores scan_text].
  destruct (Ascii.eqb c "_") eqn:Hu; [apply IH|].
  cbn [scan_text]. rewrite Hu.
  destruct (Ascii.eqb c "."); [destruct (tokenType_eqb ty f32)|];
    try reflexivity; apply IH.
Qed.

Lemma all_chars_strip p s :
  all_chars p s = true -> all_chars p (strip_underscores s) = true.
Proof.
  induction s as [|c s IH]; simpl; [reflexivity|].
  intros H. apply andb_true_iff in H. destruct H as [Hc Hs].
  destruct (Ascii.eqb c "_"); [auto|]. simpl. now rewrite Hc, IH.
Qed.

Lemma strip_literal s :
  literal_text s = true ->
  literal_text (strip_underscores s) = true
  /\ literal_scan (strip_underscores s) = literal_scan s.
Proof.
  destruct s as [|c s]; [discriminate|].
  cbn [literal_text literal_scan strip_underscores].
  destruct (isdigit c) eqn:Hd.
  - rewrite (isdigit_not_underscore _ Hd).
    cbn [literal_text literal_scan]. rewrite Hd.
    intros H. split; [now apply all_chars_strip | apply scan_text_strip].
  - destruct (Ascii.eqb_spec c "."); [subst c | discriminate].
    destruct s as [|d s]; [discriminate|].
    intros H. apply andb_true_iff in H. destruct H as [Hdd Hs].
    change (Ascii.eqb "." "_") with false. cbv iota.
    cbn [strip_underscores]. rewrite (isdigit_not_underscore _ Hdd).
    cbn [literal_text literal_scan]. change (isdigit ".") with false.
    cbv iota. change (Ascii.eqb "." ".") with true. cbv iota.
    rewrite Hdd.
    assert (E : String d (strip_underscores s) = strip_underscores (String d s))
      by (cbn [strip_underscores]; now rewrite (isdigit_not_underscore _ Hdd)).
    rewrite E. split.
    + now apply all_chars_strip.
    + apply scan_text_strip.
Qed.

Lemma scan_text_none s ty floatStr :
  scan_text s ty floatStr = None
  <-> ((if tokenType_eqb ty f32 then 1 else 2) <= count_dots s)%nat.
Proof.
  revert ty floatStr. induction s as [|c s IH]; intros ty floatStr.
  - simpl. split; [discriminate | destruct (tokenType_eqb ty f32); lia].
  - cbn [scan_text count_dots].
    destruct (Ascii.eqb_spec c "_").
    + subst c. change (Ascii.eqb "_" ".") with false. cbv iota.
      rewrite IH. simpl. reflexivity.
    + destruct (Ascii.eqb c ".").
      * destruct (tokenType_eqb ty f32) eqn:Ety.
        -- split; [lia | reflexivity].
        -- rewrite IH. simpl. lia.
      * rewrite IH. simpl. reflexivity.
Qed.

Lemma literal_scan_none s :
  literal_text s = true ->
  literal_scan s = None <-> (2 <= count_dots s)%nat.
Proof.
  destruct s as [|c s]; [discriminate|].
  cbn [literal_text literal_scan count_dots].
  destruct (isdigit c) eqn:Hd.
  - intros _. rewrite (isdigit_not_dot _ Hd), scan_text_none. simpl. reflexivity.
  - destruct (Ascii.eqb c "."); [|discriminate].
    intros _. rewrite scan_text_none. simpl. lia.
Qed.

Lemma finish_literal_not_redefinition formatTokens ty floatStr :
  finish_literal stof formatTokens ty floatStr Lexed
  <> Fatal RedefinitionOfFloat.
Proof.
  unfold finish_literal.
  destruct (tokenType_eqb ty f32);
    [destruct (stof floatStr) | destruct (stoi floatStr)]; discriminate.
Qed.

Lemma has_dot_count s : has_dot s = false -> count_dots s = 0.
Proof.
  induction s as [|c s IH]; simpl; [reflexivity|].
  intros H. apply orb_false_elim in H. destruct H as [-> H]. now rewrite IH.
Qed.

End LiteralFacts.

(** X7. Underscores in a numeric literal are separators: the literal and
    the literal without them are lexed alike. *)
Theorem underscores_are_separators (stof : string -> option float) (s : string) :
  literal_text s = true ->
  lex stof (strip_underscores s) = lex stof s.
Proof.
  intros H. destruct (strip_literal s H) as [H' E].
  rewrite (lex_literal_result stof _ H'), (lex_literal_result stof _ H), E.
  reflexivity.
Qed.

Lemma underscores_are_separators_witness :
  literal_text "1_2.5_" = true
  /\ lex Ref.stof "12.5" = lex Ref.stof "1_2.5_".
Proof.
  split; [reflexivity|].
  apply (underscores_are_separators Ref.stof "1_2.5_"). reflexivity.
Defined.

(** X8. A numeric literal ends the process with the diagnostic of the
    second decimal point exactly when it has two decimal points or more. *)
Theorem second_point_is_fatal (stof : string -> option float) (s : string) :
  literal_text s = true ->
  lex stof s = Fatal RedefinitionOfFloat <-> (2 <= count_dots s)%nat.
Proof.
  intros H. rewrite (lex_literal_result stof _ H), <- (literal_scan_none s H).
  destruct (literal_scan s) as [[ty fs]|]; [|tauto].
  split; [|discriminate].
  intros E. now apply finish_literal_not_redefinition in E.
Qed.

Lemma second_point_is_fatal_witness :
  literal_text ".5_.1" = true
  /\ (lex Ref.stof ".5_.1" = Fatal RedefinitionOfFloat
      <-> (2 <= count_dots ".5_.1")%nat).
Proof.
  split; [reflexivity|].
  apply (second_point_is_fatal Ref.stof ".5_.1"). reflexivity.
Defined.

(** X9. An integer literal whose value does not fit an [int] ends the
    process: [std::stoi] throws, although the token could hold the value in
    its [long]. *)
Theorem integer_literal_overflow (stof : string -> option float) (s : string) :
  literal_text s = true -> has_dot s = false ->
  (INT_MAX < stoi_digits (strip_underscores s) 0)%Z ->
  lex stof s = Fatal UncaughtOutOfRange.
Proof.
  intros H Hdot Hbig. rewrite (lex_literal_result stof _ H).
  destruct (literal_scan s) as [[ty fs]|] eqn:E.
  - destruct (literal_scan_spec _ _ _ H E) as [-> ->]. rewrite Hdot.
    unfold finish_literal, stoi. simpl tokenType_eqb. cbv iota.
    destruct (strip_underscores s) as [|c r]; [reflexivity|].
    destruct (isdigit c); [|reflexivity].
    apply Z.leb_gt in Hbig. now rewrite Hbig.
  - apply (literal_scan_none s H) in E.
    rewrite (has_dot_count s Hdot) in E. lia.
Qed.

Lemma integer_literal_overflow_witness :
  (literal_text "2_147_483_648" = true /\ has_dot "2_147_483_648" = false
   /\ (INT_MAX < stoi_digits (strip_underscores "2_147_483_648") 0)%Z)
  /\ lex Ref.stof "2_147_483_648" = Fatal UncaughtOutOfRange
  /\ lex Ref.stof "2_147_483_647" = Lexed [tok_i32 INT_MAX].
Proof.
  split; [repeat split; reflexivity|]. split; [|reflexivity].
  apply (integer_literal_overflow Ref.stof "2_147_483_648"); reflexivity.
Defined.

(** X10. A line of whitespace only ends the process, the lexer reading the
    terminating NUL; on the empty line the lexer gives no token and
    [compute] has no defined result. *)
Theorem blank_line (pow : float -> float -> float)
        (stof : string -> option float) (ws : string) :
  all_chars is_space ws = true ->
  evaluate pow stof ws
  = if String.eqb ws "" then Undefined else Exits (Unexpected zero).
Proof.
  intros H. destruct ws as [|c ws]; [reflexivity|].
  unfold evaluate, lex.
  change (lex_for stof (String c ws) []) with (lex_again stof (String c ws) []).
  now rewrite (lex_spaces_only stof _ _ H).
Qed.

Lemma blank_line_witness :
  all_chars is_space "  " = true
  /\ evaluate Ref.pow Ref.stof "  " = Exits (Unexpected zero).
Proof.
  split; [reflexivity|].
  apply (blank_line Ref.pow Ref.stof "  "). reflexivity.
Defined.

(** ** Reorderer: what becomes of the tokens *)

Lemma pop_operators_split o1 stack queue stack1 queue1 :
  pop_operators o1 stack queue = (stack1, queue1) ->
  exists moved, stack = moved ++ stack1 /\ queue1 = queue ++ moved.
Proof.
  revert queue. induction stack as [|o2 stack IH]; intros queue; simpl.
  - intros [= <- <-]. exists []. split; [reflexivity | now rewrite app_nil_r].
  - destruct (pops o1 o2).
    + intros H. destruct (IH _ H) as (moved & -> & ->).
      exists (o2 :: moved). split; [reflexivity | now rewrite <- app_assoc].
    + intros [= <- <-]. exists [].
      split; [reflexivity | now rewrite app_nil_r].
Qed.

Lemma pop_to_lpa_split stack queue m stack1 queue1 m1 :
  pop_to_lpa stack queue m = (stack1, queue1, m1) ->
  exists moved,
    stack = moved ++ stack1 /\ queue1 = queue ++ moved
    /\ Forall (fun x => type x <> lpa) moved
    /\ match stack1 with [] => True | l :: _ => type l = lpa end.
Proof.
  revert queue m. induction stack as [|back stack IH]; intros queue m; simpl.
  - intros [= <- <- _]. exists [].
    repeat split; [now rewrite app_nil_r | constructor].
  - destruct (tokenType_eqb (type back) lpa) eqn:E.
    + intros [= <- <- _]. exists [].
      repeat split; [now rewrite app_nil_r | constructor|].
      destruct (type back); try discriminate; reflexivity.
    + intros H. destruct (IH _ _ H) as (moved & -> & -> & F & L).
      exists (back :: moved).
      repeat split; [now rewrite <- app_assoc | | exact L].
      constructor; [|exact F].
      intros T. rewrite T in E. discriminate.
Qed.

Lemma drain_postfix stack queue q :
  drain stack queue = Postfix q ->
  q = queue ++ stack /\ Forall (fun x => type x <> lpa) stack.
Proof.
  revert queue. induction stack as [|back stack IH]; intros queue; simpl.
  - intros [= <-]. split; [now rewrite app_nil_r | constructor].
  - destruct (tokenType_eqb (type back) lpa) eqn:E; [discriminate|].
    intros H. destruct (IH _ H) as [-> F]. rewrite <- app_assoc.
    split; [reflexivity|]. constructor; [|exact F].
    intros T. rewrite T in E. discriminate.
Qed.

Ltac op_perm IH Et :=
  match goal with
  | |- context [pop_operators ?o ?s ?q] =>
      let E := fresh "E" in
      let H := fresh "H" in
      let d := fresh "d" in
      let F := fresh "F" in
      let P := fresh "P" in
      let moved := fresh "moved" in
      destruct (pop_operators o s q) as [? ?] eqn:E;
      intros H; destruct (IH _ _ _ H) as (d & F & P);
      destruct (pop_operators_split _ _ _ _ _ E) as (moved & -> & ->);
      exists d; split; [exact F|]; rewrite P;
      rewrite <- !app_assoc; simpl;
      rewrite <- !Permutation_middle; reflexivity
  end.

Ltac lit_perm IH :=
  let H := fresh "H" in
  let d := fresh "d" in
  let F := fresh "F" in
  let P := fresh "P" in
  intros H; destruct (IH _ _ _ H) as (d & F & P);
  exists d; split; [exact F|]; rewrite P;
  rewrite <- !app_assoc; simpl;
  rewrite <- !Permutation_middle; reflexivity.

(** What [shuntingYard] returns, with the parentheses it dropped on the
    way, is a rearrangement of the tokens it had. *)
Lemma sy_loop_permutation tokens :
  forall queue stack q,
    sy_loop tokens queue stack = Postfix q ->
    exists dropped,
      Forall (fun t => is_paren t = true) dropped
      /\ Permutation (q ++ dropped) (queue ++ stack ++ tokens).
Proof.
  induction tokens as [|t tokens IH]; intros queue stack q; simpl.
  - intros H. apply drain_postfix in H. destruct H as [-> _].
    exists []. split; [constructor|]. now rewrite !app_nil_r.
  - destruct (type t) eqn:Et; try discriminate.
    + intros H. destruct (IH _ _ _ H) as (d & F & P).
      exists d. split; [exact F|]. rewrite P.
      apply Permutation_app_head. simpl. apply Permutation_middle.
    + destruct (pop_to_lpa stack queue false) as [[stack1 queue1] m] eqn:E.
      destruct (negb m && match stack1 with [] => true | _ :: _ => false end);
        [discriminate|].
      intros H. destruct (IH _ _ _ H) as (d & F & P).
      destruct (pop_to_lpa_split _ _ _ _ _ _ E) as (moved & -> & -> & _ & L).
      destruct stack1 as [|l stack1].
      * exists (t :: d). split.
        -- constructor; [unfold is_paren; now rewrite Et | exact F].
        -- rewrite <- !Permutation_middle, P. simpl.
           rewrite <- !app_assoc. simpl.
           rewrite <- ?Permutation_middle. reflexivity.
      * exists (t :: l :: d). split.
        -- constructor; [unfold is_paren; now rewrite Et|].
           constructor; [unfold is_paren; now rewrite L | exact F].
        -- rewrite <- !Permutation_middle, P.
           rewrite <- !app_assoc. simpl.
           rewrite <- !Permutation_middle, <- ?app_assoc. reflexivity.
    + op_perm IH Et. + op_perm IH Et. + op_perm IH Et.
    + op_perm IH Et. + op_perm IH Et. + op_perm IH Et.
    + lit_perm IH. + lit_perm IH.
Qed.

Lemma sy_loop_no_rpa tokens :
  forall queue stack,
    Forall (fun t => type t <> rpa) queue ->
    Forall (fun t => type t <> rpa) stack ->
    Forall (fun t => type t <> rpa) (returned (sy_loop tokens queue stack)).
Proof.
  induction tokens as [|t tokens IH]; intros queue stack Fq Fs; simpl.
  - destruct (drain stack queue) as [q| | |] eqn:E; simpl; try constructor.
    apply drain_postfix in E. destruct E as [-> _].
    apply Forall_app. auto.
  - assert (Op : type t <> rpa ->
                 Forall (fun t => type t <> rpa)
                   (returned
                      (let '(stack1, queue1) := pop_operators t stack queue in
                       sy_loop tokens queue1 (t :: stack1)))).
    { intros Nt. destruct (pop_operators t stack queue) as [s1 q1] eqn:E.
      destruct (pop_operators_split _ _ _ _ _ E) as (moved & -> & ->).
      apply Forall_app in Fs. destruct Fs as [Fm Fs1].
      apply IH; [apply Forall_app; auto | constructor; auto]. }
    destruct (type t) eqn:Et; try (apply Op; discriminate).
    + constructor.
    + apply IH; [exact Fq | constructor; [congruence | exact Fs]].
    + destruct (pop_to_lpa stack queue false) as [[s1 q1] m] eqn:E.
      destruct (negb m && match s1 with [] => true | _ :: _ => false end);
        [constructor|].
      destruct (pop_to_lpa_split _ _ _ _ _ _ E) as (moved & -> & -> & _ & _).
      apply Forall_app in Fs. destruct Fs as [Fm Fs1].
      apply IH; [apply Forall_app; auto|].
      destruct s1 as [|l s1]; [constructor | now inversion Fs1].
    + apply IH; [apply Forall_app; split; [exact Fq|] | exact Fs].
      constructor; [congruence | constructor].
    + apply IH; [apply Forall_app; split; [exact Fq|] | exact Fs].
      constructor; [congruence | constructor].
Qed.

Lemma filter_none {A} (f : A -> bool) l :
  Forall (fun x => f x = false) l -> filter f l = [].
Proof.
  induction 1 as [|x l Hx H IH]; simpl; [reflexivity | now rewrite Hx].
Qed.

Lemma sy_loop_literals tokens :
  forall queue stack q,
    Forall (fun t => is_literal t = false) stack ->
    sy_loop tokens queue stack = Postfix q ->
    filter is_literal q = filter is_literal queue ++ filter is_literal tokens.
Proof.
  induction tokens as [|t tokens IH]; intros queue stack q Fs;
    cbn [sy_loop filter].
  - intros H. apply drain_postfix in H. destruct H as [-> _].
    now rewrite filter_app, (filter_none _ _ Fs).
  - assert (Op : is_literal t = false ->
                 (let '(stack1, queue1) := pop_operators t stack queue in
                  sy_loop tokens queue1 (t :: stack1)) = Postfix q ->
                 filter is_literal q
                 = filter is_literal queue ++ filter is_literal tokens).
    { intros Nt. destruct (pop_operators t stack queue) as [s1 q1] eqn:E.
      destruct (pop_operators_split _ _ _ _ _ E) as (moved & -> & ->).
      apply Forall_app in Fs. destruct Fs as [Fm Fs1].
      intros H. apply IH in H; [|constructor; auto].
      now rewrite H, filter_app, (filter_none _ _ Fm), app_nil_r. }
    pose proof (eq_refl : is_literal t
                          = match type t with i32 | f32 => true | _ => false end)
      as L.
    destruct (type t) eqn:Et; rewrite L in *;
      try (apply Op; reflexivity); try discriminate.
    + intros H. apply IH in H; [exact H|].
      constructor; [exact L | exact Fs].
    + destruct (pop_to_lpa stack queue false) as [[s1 q1] m] eqn:E.
      destruct (negb m && match s1 with [] => true | _ :: _ => false end);
        [discriminate|].
      destruct (pop_to_lpa_split _ _ _ _ _ _ E) as (moved & -> & -> & _ & _).
      apply Forall_app in Fs. destruct Fs as [Fm Fs1].
      intros H. apply IH in H.
      * now rewrite H, filter_app, (filter_none _ _ Fm), app_nil_r.
      * destruct s1 as [|l s1]; [constructor | now inversion Fs1].
    + intros H. apply IH in H; [|exact Fs].
      rewrite H, filter_app. cbn [filter]. rewrite L.
      now rewrite <- app_assoc.
    + intros H. apply IH in H; [|exact Fs].
      rewrite H, filter_app. cbn [filter]. rewrite L.
      now rewrite <- app_assoc.
Qed.

Lemma sy_loop_succeeds tokens :
  forall queue stack,
    Forall (fun t => counts t = true) tokens ->
    Forall (fun o => tokenType_eqb (type o) lpa = false) stack ->
    exists q, sy_loop tokens queue stack = Postfix q.
Proof.
  induction tokens as [|t tokens IH]; intros queue stack Ft Fs; simpl.
  - rewrite (drain_operators _ _ Fs). eauto.
  - inversion Ft as [|? ? Ct Ft']; subst.
    assert (Op : tokenType_eqb (type t) lpa = false ->
                 exists q,
                   (let '(stack1, queue1) := pop_operators t stack queue in
                    sy_loop tokens queue1 (t :: stack1)) = Postfix q).
    { intros Nt. destruct (pop_operators t stack queue) as [s1 q1] eqn:E.
      destruct (pop_operators_split _ _ _ _ _ E) as (moved & -> & ->).
      apply Forall_app in Fs. destruct Fs as [_ Fs1].
      apply IH; [exact Ft' | constructor; auto]. }
    unfold counts, is_literal, is_operator in Ct.
    destruct (type t) eqn:Et; try discriminate Ct;
      try (apply Op; reflexivity); now apply IH.
Qed.

Lemma sy_loop_rpa_error tokens :
  forall queue stack t,
    sy_loop tokens queue stack = RightParenthesisError t ->
    In t tokens /\ type t = rpa.
Proof.
  induction tokens as [|t0 tokens IH]; intros queue stack t; simpl.
  - induction stack as [|o stack IHs] in queue |- *; simpl; [discriminate|].
    destruct (tokenType_eqb (type o) lpa); [discriminate | apply IHs].
  - destruct (type t0) eqn:E;
      try (destruct (pop_operators t0 stack queue) as [? ?]);
      try (intros H; apply IH in H; tauto); try discriminate.
    destruct (pop_to_lpa stack queue false) as [[stack1 queue1] m].
    destruct (negb m && match stack1 with [] => true | _ :: _ => false end).
    + intros [= <-]. auto.
    + intros H; apply IH in H; tauto.
Qed.

Lemma sy_loop_mismatch tokens :
  forall queue stack,
    sy_loop tokens queue stack = MismatchedParentheses ->
    exists t, (In t stack \/ In t tokens) /\ type t = lpa.
Proof.
  induction tokens as [|t0 tokens IH]; intros queue stack; simpl.
  - induction stack as [|o stack IHs] in queue |- *; simpl; [discriminate|].
    destruct (tokenType_eqb (type o) lpa) eqn:E.
    + intros _. exists o. split; [now left; left|].
      destruct (type o); try discriminate; reflexivity.
    + intros H. destruct (IHs _ H) as (t & [Hin | []] & Ht).
      exists t. split; [left; now right | exact Ht].
  - assert (Op : type t0 <> lpa ->
                 (let '(stack1, queue1) := pop_operators t0 stack queue in
                  sy_loop tokens queue1 (t0 :: stack1)) = MismatchedParentheses ->
                 exists t, (In t stack \/ In t (t0 :: tokens)) /\ type t = lpa).
    { intros Nt. destruct (pop_operators t0 stack queue) as [s1 q1] eqn:E.
      destruct (pop_operators_split _ _ _ _ _ E) as (moved & -> & ->).
      intros H. destruct (IH _ _ H) as (t & [[<- | Hin] | Hin] & Ht);
        [congruence | |]; exists t; (split; [|exact Ht]).
      - left. apply in_or_app. now right.
      - right. now right. }
    destruct (type t0) eqn:Et; try (apply Op; discriminate); try discriminate.
    + intros H. destruct (IH _ _ H) as (t & [[E0 | Hin] | Hin] & Ht);
        exists t; (split; [|exact Ht]); simpl; auto.
    + destruct (pop_to_lpa stack queue false) as [[s1 q1] m] eqn:E.
      destruct (negb m && match s1 with [] => true | _ :: _ => false end);
        [discriminate|].
      destruct (pop_to_lpa_split _ _ _ _ _ _ E) as (moved & -> & -> & _ & _).
      intros H. destruct (IH _ _ H) as (t & [Hin | Hin] & Ht);
        exists t; (split; [|exact Ht]).
      * left. apply in_or_app. right.
        destruct s1 as [|l s1]; [contradiction | now right].
      * right. now right.
    + intros H. destruct (IH _ _ H) as (t & [Hin | Hin] & Ht);
        exists t; (split; [|exact Ht]); simpl; auto.
    + intros H. destruct (IH _ _ H) as (t & [Hin | Hin] & Ht);
        exists t; (split; [|exact Ht]); simpl; auto.
Qed.

(** X11. What [shuntingYard] returns when it reports nothing is, with the
    parentheses it dropped, a rearrangement of its input: no token is made,
    lost or repeated, parentheses apart. *)
Theorem shuntingYard_rearranges (tokens : list token) :
  match shuntingYard tokens with
  | Postfix q =>
      exists dropped,
        Forall (fun t => is_paren t = true) dropped
        /\ Permutation (q ++ dropped) tokens
  | _ => True
  end.
Proof.
  destruct (shuntingYard tokens) as [q| | |] eqn:E; try exact I.
  apply sy_loop_permutation in E. exact E.
Qed.

(** X12. A right parenthesis is never in what [shuntingYard] returns. *)
Theorem shuntingYard_returns_no_right_paren (tokens : list token) :
  Forall (fun t => type t <> rpa) (returned (shuntingYard tokens)).
Proof. apply sy_loop_no_rpa; constructor. Qed.

(** X13. [shuntingYard] keeps the literals in the order of its input. *)
Theorem shuntingYard_keeps_literal_order (tokens : list token) :
  match shuntingYard tokens with
  | Postfix q => filter is_literal q = filter is_literal tokens
  | _ => True
  end.
Proof.
  destruct (shuntingYard tokens) as [q| | |] eqn:E; try exact I.
  apply sy_loop_literals in E; [exact E | constructor].
Qed.

(** X14. On literals and operators only [shuntingYard] reports nothing, and
    what it returns is a rearrangement of its input. *)
Theorem shuntingYard_without_parens (tokens : list token) :
  Forall (fun t => counts t = true) tokens ->
  exists q, shuntingYard tokens = Postfix q /\ Permutation q tokens.
Proof.
  intros F.
  destruct (sy_loop_succeeds tokens [] [] F (Forall_nil _)) as [q E].
  exists q. split; [exact E|].
  destruct (sy_loop_permutation _ _ _ _ E) as (d & Fd & P). simpl in P.
  destruct d as [|x d]; [now rewrite app_nil_r in P|].
  exfalso. inversion Fd as [|? ? Hx _]; subst.
  assert (Hin : In x tokens).
  { apply (Permutation_in _ P), in_or_app. right. now left. }
  rewrite Forall_forall in F. specialize (F x Hin).
  unfold counts, is_literal, is_operator, is_paren in *.
  destruct (type x); discriminate.
Qed.

Lemma shuntingYard_without_parens_witness :
  Forall (fun t => counts t = true)
    [tok_i32 1; tok_add; tok_i32 2; tok_mul; tok_i32 3]
  /\ exists q,
      shuntingYard [tok_i32 1; tok_add; tok_i32 2; tok_mul; tok_i32 3]
      = Postfix q
      /\ Permutation q [tok_i32 1; tok_add; tok_i32 2; tok_mul; tok_i32 3].
Proof.
  assert (F : Forall (fun t => counts t = true)
                [tok_i32 1; tok_add; tok_i32 2; tok_mul; tok_i32 3])
    by (repeat constructor).
  split; [exact F|].
  exact (shuntingYard_without_parens _ F).
Defined.

(** X15. An error of [shuntingYard] is about a token of its input: the
    right parenthesis it reports is one of the input, a mismatch is
    reported only when the input has a left parenthesis, and the error of
    the [default] branch only for a token of kind [nil]. *)
Theorem shuntingYard_errors (tokens : list token) :
  match shuntingYard tokens with
  | Postfix _ => True
  | RightParenthesisError t => In t tokens /\ type t = rpa
  | TokenError t => In t tokens /\ type t = nil_t
  | MismatchedParentheses => exists t, In t tokens /\ type t = lpa
  end.
Proof.
  destruct (shuntingYard tokens) as [q|t|t|] eqn:E.
  - exact I.
  - now apply sy_loop_rpa_error in E.
  - now apply sy_loop_token_error in E.
  - apply sy_loop_mismatch in E. destruct E as (t & [[] | Hin] & Ht). eauto.
Qed.

(** ** Evaluator: the value stack *)

Section ComputeFacts.

Variable pow : float -> float -> float.

Lemma compute_loop_app a b stack :
  compute_loop pow (a ++ b) stack
  = match compute_loop pow a stack with
    | Some stack' => compute_loop pow b stack'
    | None => None
    end.
Proof.
  revert stack. induction a as [|t a IH]; intros stack; simpl; [reflexivity|].
  destruct (compute_step pow t stack); [apply IH | reflexivity].
Qed.

Lemma compute_step_ignored t stack :
  counts t = false -> compute_step pow t stack = Some stack.
Proof.
  unfold counts, is_literal, is_operator, compute_step.
  destruct (type t); try discriminate; reflexivity.
Qed.

Lemma compute_loop_filter formatted stack :
  compute_loop pow (filter counts formatted) stack
  = compute_loop pow formatted stack.
Proof.
  revert stack. induction formatted as [|t formatted IH]; intros stack;
    [reflexivity|].
  cbn [filter]. destruct (counts t) eqn:C.
  - cbn [compute_loop]. destruct (compute_step pow t stack); auto.
  - cbn [compute_loop]. rewrite (compute_step_ignored _ _ C). apply IH.
Qed.

Lemma compute_step_height t stack :
  option_map (@List.length float) (compute_step pow t stack)
  = height_step t (List.length stack).
Proof.
  unfold compute_step, height_step, is_literal, is_operator.
  destruct (type t) eqn:Et; try reflexivity;
    (destruct (unary t);
     [destruct stack; reflexivity
     | destruct stack as [|rhs [|lhs stack]]; reflexivity]).
Qed.

Lemma compute_loop_height formatted stack :
  option_map (@List.length float) (compute_loop pow formatted stack)
  = height_loop formatted (List.length stack).
Proof.
  revert stack. induction formatted as [|t formatted IH]; intros stack;
    [reflexivity|].
  cbn [compute_loop height_loop]. rewrite <- compute_step_height.
  destruct (compute_step pow t stack) as [stack'|]; [apply IH | reflexivity].
Qed.

Lemma compute_step_frame t stack stack' below :
  compute_step pow t stack = Some stack' ->
  compute_step pow t (stack ++ below) = Some (stack' ++ below).
Proof.
  unfold compute_step.
  destruct (type t); try (intros [= <-]; reflexivity);
    (destruct (unary t);
     [destruct stack; [discriminate | intros [= <-]; reflexivity]
     | destruct stack as [|rhs [|lhs stack]]; try discriminate;
       intros [= <-]; reflexivity]).
Qed.

Lemma compute_loop_frame formatted stack stack' below :
  compute_loop pow formatted stack = Some stack' ->
  compute_loop pow formatted (stack ++ below) = Some (stack' ++ below).
Proof.
  revert stack. induction formatted as [|t formatted IH]; intros stack;
    cbn [compute_loop].
  - intros [= <-]. reflexivity.
  - destruct (compute_step pow t stack) as [s1|] eqn:E; [|discriminate].
    rewrite (compute_step_frame _ _ _ below E). apply IH.
Qed.

End ComputeFacts.

(** X16. [compute] does nothing for a parenthesis and for a token of kind
    [nil]: taking them out of the sequence does not change the result. *)
Theorem compute_ignores_parens (pow : float -> float -> float)
        (formatted : list token) :
  compute pow (filter counts formatted) = compute pow formatted.
Proof. unfold compute. now rewrite compute_loop_filter. Qed.

(** X17. Whether the loop of [compute] stays within its stack, and the
    height of the stack it leaves, depend on the kinds of the tokens only,
    not on the values nor on [std::pow]: a literal adds one value, a unary
    minus needs one and leaves the height, a binary operator needs two and
    takes one away, and a modulo takes both away. *)
Theorem compute_height (pow : float -> float -> float)
        (formatted : list token) (stack : list float) :
  option_map (@List.length float) (compute_loop pow formatted stack)
  = height_loop formatted (List.length stack).
Proof. apply compute_loop_height. Qed.

(** X18. The loop of [compute] on a sequence in two parts: the second part
    begins on the stack the first part leaves, and there is no result when
    the first part has none. *)
Theorem compute_in_two_parts (pow : float -> float -> float)
        (a b : list token) (stack : list float) :
  compute_loop pow (a ++ b) stack
  = match compute_loop pow a stack with
    | Some stack' => compute_loop pow b stack'
    | None => None
    end.
Proof. apply compute_loop_app. Qed.

(** X19. The loop of [compute] does not look below the values it needs:
    when it ends well on a stack it ends well on the stack with more values
    below, which it leaves as they are. *)
Theorem compute_leaves_the_rest (pow : float -> float -> float)
        (formatted : list token) (stack stack' below : list float) :
  compute_loop pow formatted stack = Some stack' ->
  compute_loop pow formatted (stack ++ below) = Some (stack' ++ below).
Proof. apply compute_loop_frame. Qed.

Lemma compute_leaves_the_rest_witness :
  compute_loop Ref.pow [tok_i32 2; tok_mul] [F32.of_Z 3]
  = Some [F32.of_Z 6]
  /\ compute_loop Ref.pow [tok_i32 2; tok_mul] ([F32.of_Z 3] ++ [F32.of_Z 7])
     = Some ([F32.of_Z 6] ++ [F32.of_Z 7]).
Proof.
  split; [reflexivity|].
  apply (compute_leaves_the_rest Ref.pow [tok_i32 2; tok_mul]).
  reflexivity.
Defined.

(** ** The driver *)

Section DriverFacts.

Variable pow : float -> float -> float.
Variable stof : string -> option float.

Lemma main_loop_line exprStr input v :
  prints pow stof exprStr v ->
  main_loop pow stof (exprStr :: input) []
  = (v :: fst (main_loop pow stof input []), snd (main_loop pow stof input [])).
Proof.
  intros [N E]. cbn [main_loop].
  apply String.eqb_neq in N. rewrite N.
  unfold evaluate, lex in E.
  destruct (lex_for stof exprStr []) as [toks|e]; [|discriminate].
  destruct (compute pow (returned (shuntingYard toks))); [|discriminate].
  injection E as ->. now destruct (main_loop pow stof input []).
Qed.

Lemma main_after_lines before printed after :
  Forall2 (prints pow stof) before printed ->
  main pow stof (before ++ after)
  = (printed ++ fst (main pow stof after), snd (main pow stof after)).
Proof.
  unfold main. induction 1 as [|line v before printed Hl H IH]; simpl app.
  - now destruct (main_loop pow stof after []).
  - rewrite (main_loop_line _ _ _ Hl), IH. reflexivity.
Qed.

Lemma main_normal_exit input :
  forall printed,
    main pow stof input = (printed, NormalExit) ->
    exists before after,
      input = before ++ "exit" :: after
      /\ Forall2 (prints pow stof) before printed.
Proof.
  unfold main. induction input as [|line input IH]; intros printed;
    cbn [main_loop].
  - destruct (compute pow (returned (shuntingYard []))); discriminate.
  - destruct (String.eqb_spec line "exit") as [-> | N].
    + intros [= <-]. exists [], input. split; [reflexivity | constructor].
    + destruct (lex_for stof line []) as [toks|e] eqn:L; [|discriminate].
      destruct (compute pow (returned (shuntingYard toks))) as [v|] eqn:C;
        [|discriminate].
      destruct (main_loop pow stof input []) as [p e] eqn:M.
      intros [= <- ->].
      destruct (IH p eq_refl) as (before & after & -> & F).
      exists (line :: before), after. split; [reflexivity|].
      constructor; [|exact F]. split; [exact N|].
      unfold evaluate, lex. now rewrite L, C.
Qed.

End DriverFacts.

(** X20. The driver ends with [return 0] exactly when its input has a line
    [exit] before which every line is evaluated and printed; it prints the
    values of these lines, in order, and reads nothing after the [exit]. *)
Theorem main_ends_normally (pow : float -> float -> float)
        (stof : string -> option float)
        (input : list string) (printed : list float) :
  main pow stof input = (printed, NormalExit)
  <-> exists before after,
      input = before ++ "exit" :: after
      /\ Forall2 (prints pow stof) before printed.
Proof.
  split; [apply main_normal_exit|].
  intros (before & after & -> & F).
  rewrite (main_after_lines pow stof _ _ _ F). simpl. now rewrite app_nil_r.
Qed.

(** X21. A line that is evaluated and printed leaves nothing behind: after
    such lines the driver goes on as it would on the rest of the input
    alone. *)
Theorem main_after_printed_lines (pow : float -> float -> float)
        (stof : string -> option float)
        (before : list string) (printed : list float) (after : list string) :
  Forall2 (prints pow stof) before printed ->
  main pow stof (before ++ after)
  = (printed ++ fst (main pow stof after), snd (main pow stof after)).
Proof. apply main_after_lines. Qed.

Lemma main_after_printed_lines_witness :
  Forall2 (prints Ref.pow Ref.stof) ["1+2"; "2^3^2"]
          [F32.of_Z 3; F32.of_Z 512]
  /\ main Ref.pow Ref.stof (["1+2"; "2^3^2"] ++ ["7-"; "exit"])
     = ([F32.of_Z 3; F32.of_Z 512] ++ [], NoDefinedResult).
Proof.
  assert (F : Forall2 (prints Ref.pow Ref.stof) ["1+2"; "2^3^2"]
                      [F32.of_Z 3; F32.of_Z 512]).
  { repeat constructor; discriminate. }
  split; [exact F|].
  exact (main_after_printed_lines Ref.pow Ref.stof _ _ ["7-"; "exit"] F).
Defined.

(** ** Lexer and reorderer: texts without parentheses *)

Lemma lexeme_counts stof formatTokens txt t :
  lexeme stof formatTokens txt t ->
  all_chars not_paren_char txt = true -> counts t = true.
Proof.
  intros [(c & -> & Hc) | [[-> ->] | [Ht Hlex]]] H.
  - simpl in Hc.
    repeat (destruct Hc as [[= <- <-] | Hc];
            [first [discriminate H | reflexivity]|]).
    contradiction.
  - destruct (minus_is_unary formatTokens); reflexivity.
  - destruct (literal_token_shape stof _ _ Ht Hlex) as [(n & -> & _) | (x & ->)];
      reflexivity.
Qed.

Lemma lexemes_counts stof formatTokens s ts :
  lexemes stof formatTokens s ts ->
  all_chars not_paren_char s = true -> Forall (fun t => counts t = true) ts.
Proof.
  induction 1 as [toks | toks ws txt t rest ts Hws Hl Hs H IH];
    [constructor|].
  rewrite !all_chars_app. intros C.
  apply andb_true_iff in C. destruct C as [_ C].
  apply andb_true_iff in C. destruct C as [Ct Cr].
  constructor; [now apply (lexeme_counts stof toks txt) | auto].
Qed.

(** X22. A text without a parenthesis that the lexer accepts is reordered:
    [shuntingYard] reports an error only for a text with a parenthesis. *)
Theorem reorder_without_parens (stof : string -> option float) (text : string) :
  all_chars not_paren_char text = true ->
  match reorder stof text with
  | Some r => exists q, r = Postfix q
  | None => True
  end.
Proof.
  intros C. unfold reorder.
  destruct (lex stof text) as [ts|e] eqn:E; [|exact I].
  apply lex_lexemes in E.
  pose proof (lexemes_counts stof [] text ts E C) as F.
  apply (sy_loop_succeeds ts [] [] F (Forall_nil _)).
Qed.

Lemma reorder_without_parens_witness :
  all_chars not_paren_char "1+2x3" = true
  /\ match reorder Ref.stof "1+2x3" with
     | Some r => exists q, r = Postfix q
     | None => True
     end.
Proof.
  split; [reflexivity|].
  apply (reorder_without_parens Ref.stof "1+2x3"). reflexivity.
Defined.
